(** * ai-home-loan-assistant: the affordability engine of [app.py]

    A shallow embedding of the three pieces of [app.py] that carry logic:

    - [parse_income_from_text]: the income extractor, two [re.search]
      calls over the lowercased, comma-stripped query;
    - [estimate_loan_amount]: the annuity present-value estimator;
    - the module-level query handler that chooses between the offline
      estimate and the OpenAI call, with its quota fallback.

    Modelling conventions.

    - A Python [str] is a list of characters [list ascii]; a character is
      read as the code point U+0000..U+00FF with the same number, and the
      character classes of [re] ([\d], [\s], [\b]) and [str.lower] are the
      Unicode ones restricted to that range.  Code points above U+00FF are
      outside the model.
    - A Python [float] is an exact rational [Q]: rounding, infinities and
      NaN of binary64 are outside the model, and the exact operations never
      raise [OverflowError]; a Python [int] is a [Z].
    - A Python call either returns a value or raises: [outcome A].
    - The handler runs in [io]: the list of events it causes (Streamlit
      outputs and the calls to its three collaborators) and its outcome. *)

From Stdlib Require Import String Ascii List Bool Arith ZArith QArith Qpower Qminmax
  Qround Lia Lqa.
Import ListNotations.

Local Close Scope Q_scope.
Local Open Scope nat_scope.
Local Open Scope list_scope.

(** ** Exceptions and outcomes *)

Inductive exn : Type :=
| TypeError
| ValueError
| ZeroDivisionError
| OverflowError.

Inductive outcome (A : Type) : Type :=
| Returned (a : A)
| Raised (e : exn).

Arguments Returned {A} a.
Arguments Raised {A} e.

Definition obind {A B : Type} (o : outcome A) (f : A -> outcome B) : outcome B :=
  match o with
  | Returned a => f a
  | Raised e => Raised e
  end.

(** [try: body / except Exception: handler]. Every exception of the model
    is a subclass of [Exception]. *)
Definition try_except {A : Type} (body : outcome A) (handler : exn -> outcome A)
  : outcome A :=
  match body with
  | Returned a => Returned a
  | Raised e => handler e
  end.

Declare Scope outcome_scope.
Delimit Scope outcome_scope with outcome.
Notation "x <- c ;; k" := (obind c (fun x => k))
  (at level 61, c at next level, right associativity) : outcome_scope.

(** ** Characters *)

Definition code (c : ascii) : nat := nat_of_ascii c.

Definition in_range (lo hi : nat) (c : ascii) : bool :=
  (lo <=? code c) && (code c <=? hi).

(** [\d] on a [str] pattern: the decimal digits, [0]..[9] below U+0100. *)
Definition is_digit (c : ascii) : bool := in_range 48 57 c.

(** [\s] on a [str] pattern: [str.isspace], that is TAB..CR, FS..US, the
    blank, NEL (U+0085) and the no-break space (U+00A0). *)
Definition is_space (c : ascii) : bool :=
  in_range 9 13 c || in_range 28 32 c || (code c =? 133) || (code c =? 160).

(** [str.isalnum] below U+0100. *)
Definition is_alnum (c : ascii) : bool :=
  in_range 48 57 c || in_range 65 90 c || in_range 97 122 c
  || (code c =? 170) || in_range 178 179 c || (code c =? 181)
  || in_range 185 186 c || in_range 188 190 c
  || in_range 192 214 c || in_range 216 246 c || in_range 248 255 c.

(** [\w]: alphanumeric or the underscore. *)
Definition is_word (c : ascii) : bool := is_alnum c || (code c =? 95).

(** [str.lower] on one character: [A]..[Z] and the capital letters of
    Latin-1 (U+00C0..U+00DE without the multiplication sign) move up by 32. *)
Definition lower_char (c : ascii) : ascii :=
  if in_range 65 90 c || in_range 192 214 c || in_range 216 222 c
  then ascii_of_nat (code c + 32)
  else c.

Definition lower (s : list ascii) : list ascii := map lower_char s.

(** [s.replace(",", "")]. *)
Definition strip_commas (s : list ascii) : list ascii :=
  filter (fun c => negb (Ascii.eqb c ","%char)) s.

(** ** The fragment of [re] the two patterns use

    Greedy, backtracking, leftmost-first matching as in CPython's [sre]:
    a matcher takes the text already consumed (reversed), the text left,
    the groups set so far and the continuation for what follows. *)

Inductive regex : Type :=
| Lit (c : ascii)                                   (* a literal character *)
| Cls (p : ascii -> bool)                           (* a class: [\d], [\s] *)
| Bnd                                               (* [\b] *)
| Rep (p : ascii -> bool) (lo : nat) (hi : option nat)
                                                    (* greedy [p{lo,hi}] *)
| Opt (r : regex)                                   (* greedy [r?] *)
| Cat (r1 r2 : regex)
| Alt (r1 r2 : regex)                               (* [r1|r2] *)
| Grp (i : nat) (r : regex).                        (* capturing group [i] *)

Definition captures : Type := list (nat * list ascii).

Definition cont : Type := list ascii -> list ascii -> captures -> option captures.

Definition set_group (i : nat) (s : list ascii) (caps : captures) : captures :=
  (i, s) :: caps.

(** [m.group(i)]: the last text the group matched, [None] when it took no part. *)
Fixpoint group (i : nat) (caps : captures) : option (list ascii) :=
  match caps with
  | [] => None
  | (j, s) :: caps' => if Nat.eqb i j then Some s else group i caps'
  end.

(** The text consumed between two positions of one scan, both given by
    their reversed prefixes. *)
Definition slice (prev prev' : list ascii) : list ascii :=
  rev (firstn (length prev' - length prev) prev').

Definition word_before (prev : list ascii) : bool :=
  match prev with
  | c :: _ => is_word c
  | [] => false
  end.

Definition word_after (rest : list ascii) : bool :=
  match rest with
  | c :: _ => is_word c
  | [] => false
  end.

(** [\b]: exactly one side of the position is a word character. *)
Definition at_boundary (prev rest : list ascii) : bool :=
  xorb (word_before prev) (word_after rest).

Definition below (hi : option nat) (n : nat) : bool :=
  match hi with
  | None => true
  | Some h => n <? h
  end.

(** Greedy repetition of a character class, [n] characters taken so far:
    take one more when allowed, and fall back to stopping here when the rest
    of the pattern fails after the longer run. *)
Fixpoint rep (p : ascii -> bool) (lo : nat) (hi : option nat) (n : nat)
    (prev rest : list ascii) (caps : captures) (k : cont) : option captures :=
  let stop := if lo <=? n then k prev rest caps else None in
  match rest with
  | c :: rest' =>
      if p c && below hi n then
        match rep p lo hi (S n) (c :: prev) rest' caps k with
        | Some m => Some m
        | None => stop
        end
      else stop
  | [] => stop
  end.

Fixpoint rmatch (r : regex) (prev rest : list ascii) (caps : captures) (k : cont)
  : option captures :=
  match r with
  | Lit c =>
      match rest with
      | x :: rest' => if Ascii.eqb x c then k (x :: prev) rest' caps else None
      | [] => None
      end
  | Cls p =>
      match rest with
      | x :: rest' => if p x then k (x :: prev) rest' caps else None
      | [] => None
      end
  | Bnd => if at_boundary prev rest then k prev rest caps else None
  | Rep p lo hi => rep p lo hi 0 prev rest caps k
  | Opt r' =>
      match rmatch r' prev rest caps k with
      | Some m => Some m
      | None => k prev rest caps
      end
  | Cat r1 r2 =>
      rmatch r1 prev rest caps
        (fun prev' rest' caps' => rmatch r2 prev' rest' caps' k)
  | Alt r1 r2 =>
      match rmatch r1 prev rest caps k with
      | Some m => Some m
      | None => rmatch r2 prev rest caps k
      end
  | Grp i r' =>
      rmatch r' prev rest caps
        (fun prev' rest' caps' =>
           k prev' rest' (set_group i (slice prev prev') caps'))
  end.

Definition accept : cont := fun _ _ caps => Some caps.

(** One attempt of the whole pattern at the current position. *)
Definition match_here (r : regex) (prev rest : list ascii) : option captures :=
  rmatch r prev rest [] accept.

(** [re.search]: the first position, from the left, where an attempt succeeds. *)
Fixpoint search_from (r : regex) (prev rest : list ascii) : option captures :=
  match match_here r prev rest with
  | Some m => Some m
  | None =>
      match rest with
      | [] => None
      | c :: rest' => search_from r (c :: prev) rest'
      end
  end.

Definition re_search (r : regex) (t : list ascii) : option captures :=
  search_from r [] t.

(** The optional currency marker both patterns start with, [(r\s* )?]
    (the blank after the star is not part of the pattern). *)
Definition marker : regex :=
  Opt (Grp 1 (Cat (Lit "r"%char) (Rep is_space 0 None))).

(** The shorthand pattern, [(r\s* )?(\d+(?:\.\d+)?)\s*k\b]. *)
Definition k_pattern : regex :=
  Cat marker
   (Cat (Grp 2 (Cat (Rep is_digit 1 None)
                    (Opt (Cat (Lit "."%char) (Rep is_digit 1 None)))))
    (Cat (Rep is_space 0 None)
     (Cat (Lit "k"%char) Bnd))).

(** The plain pattern, [(r\s* )?(\d{4,7})(?:\b|\s)]. *)
Definition plain_pattern : regex :=
  Cat marker
   (Cat (Grp 2 (Rep is_digit 4 (Some 7)))
        (Alt Bnd (Cls is_space))).

(** ** [float] of a matched group *)

Definition digit_val (c : ascii) : Z := Z.of_nat (code c) - 48.

Fixpoint digits_value (acc : Z) (s : list ascii) : Z :=
  match s with
  | [] => acc
  | c :: s' => digits_value (acc * 10 + digit_val c) s'
  end.

(** The longest prefix in the class, and what follows it. *)
Fixpoint span (p : ascii -> bool) (s : list ascii) : list ascii * list ascii :=
  match s with
  | [] => ([], [])
  | c :: s' =>
      if p c then let (a, b) := span p s' in (c :: a, b) else ([], s)
  end.

(** The value of the decimal numeral [ip.fp]. *)
Definition dec_value (ip fp : list ascii) : Q :=
  Qmake (digits_value 0 (ip ++ fp)) (Z.to_pos (10 ^ Z.of_nat (length fp))).

(** [float(s)] for [s] a group of a match: the numerals [digits] and
    [digits.digits] are converted, [None] (a group that took no part) is a
    [TypeError], and any other text a [ValueError].  ([float] reads more
    than that: signs, exponents, blanks; no group of the two patterns can
    hold such a text.) *)
Definition py_float (g : option (list ascii)) : outcome Q :=
  match g with
  | None => Raised TypeError
  | Some s =>
      match span is_digit s with
      | ((_ :: _) as ip, []) => Returned (dec_value ip [])
      | ((_ :: _) as ip, dot :: fp) =>
          if Ascii.eqb dot "."%char && negb (Nat.eqb (length fp) 0)
             && forallb is_digit fp
          then Returned (dec_value ip fp)
          else Raised ValueError
      | _ => Raised ValueError
      end
  end.

(** ** [parse_income_from_text] *)

Local Open Scope outcome_scope.

(** The second half of the function: the plain number, possibly prefixed
    by R. *)
Definition parse_plain (t : list ascii) : outcome (option Q) :=
  match re_search plain_pattern t with
  | Some m =>
      try_except (x <- py_float (group 2 m) ;; Returned (Some x))
                 (fun _ => Returned None)
  | None => Returned None
  end.

Definition normalize (s : string) : list ascii :=
  strip_commas (lower (list_ascii_of_string s)).

(** [text] is [None] or a [str]; [not text] holds for [None] and for the
    empty string.  A failure of [float] on the [k] match is passed over and
    the plain pattern is tried. *)
Definition parse_income_from_text (text : option string) : outcome (option Q) :=
  match text with
  | None => Returned None
  | Some EmptyString => Returned None
  | Some s =>
      let t := normalize s in
      match re_search k_pattern t with
      | Some k_match =>
          try_except
            (x <- py_float (group 2 k_match) ;; Returned (Some (x * 1000)%Q))
            (fun _ => parse_plain t)
      | None => parse_plain t
      end
  end.

(** ** [estimate_loan_amount] *)

(** [a / b] on floats. *)
Definition py_div (a b : Q) : outcome Q :=
  if Qeq_bool b 0 then Raised ZeroDivisionError else Returned (a / b)%Q.

(** [b ** e] for a float [b] and an int [e], in exact arithmetic: zero
    cannot be raised to a negative power, and every other power has a
    value.  On binary64 [**] also raises [OverflowError], when the result
    or the exponent leaves the range of floats; that power is not this
    definition but a parameter of [estimate_with] below. *)
Definition py_pow (b : Q) (e : Z) : outcome Q :=
  if Qeq_bool b 0 && (e <? 0)%Z then Raised ZeroDivisionError
  else Returned (b ^ e)%Q.

(** [max(a, b)]: the first argument unless the second is greater. *)
Definition py_max (a b : Q) : Q :=
  match (b ?= a)%Q with
  | Gt => b
  | _ => a
  end.

(** The body of the function over a division and a power that may raise.
    On binary64 [**] and the conversions of large ints raise
    [OverflowError]; the exact operations of the model cannot, so the
    [try] is stated for any pair of operations.  The products, the sum
    and the difference are exact throughout. *)
Definition estimate_with (div : Q -> Q -> outcome Q) (pow : Q -> Z -> outcome Q)
    (monthly_income annual_rate_pct : Q) (years repayment_pct : Z)
  : outcome (option Q) :=
  try_except
    (x <- div (inject_Z repayment_pct) 100%Q ;;
     let affordable_payment := (monthly_income * x)%Q in
     y <- div annual_rate_pct 100%Q ;;
     r <- div y 12%Q ;;
     let n := (years * 12)%Z in
     if Qle_bool r 0 then
       Returned (Some (affordable_payment * inject_Z n)%Q)
     else
       (* PV = Pmt * (1 - (1+r)^-n) / r *)
       p <- pow (1 + r)%Q (- n)%Z ;;
       pv <- div (affordable_payment * (1 - p))%Q r ;;
       Returned (Some (py_max pv 0)))
    (fun _ => Returned None).

(** The function in exact arithmetic: what is proved of it is proved of
    the code up to the rounding and the range of binary64. *)
Definition estimate_loan_amount (monthly_income annual_rate_pct : Q)
    (years repayment_pct : Z) : outcome (option Q) :=
  estimate_with py_div py_pow monthly_income annual_rate_pct years
                repayment_pct.

(** ** The query handler *)

Local Open Scope string_scope.

(** The answer and the failure of [client.chat.completions.create]: the
    content of the first choice, or the text [str(e)] of the exception. *)
Inductive reply : Type :=
| Answer (content : string)
| Failure (err_text : string).

Definition remote : Type := string -> reply.

(** What [st.write] and [st.error] are given. [Estimate_report] is the
    f-string with the bond amount and the four assumptions,
    [Error_calling] the f-string that quotes the exception. *)
Inductive message : Type :=
| Text (s : string)
| Estimate_report (est income rate : Q) (years pct : Z)
| Error_calling (err_text : string).

Inductive event : Type :=
| Call_parse (text : string)
| Call_estimate (income rate : Q) (years pct : Z)
| Call_remote (question : string)
| St_success (body : string)
| St_write (body : message)
| St_info (body : string)
| St_warning (body : string)
| St_error (body : message).

(** The events caused so far, and how the code went on. *)
Definition io (A : Type) : Type := list event * outcome A.

Definition io_ret {A : Type} (a : A) : io A := ([], Returned a).

Definition io_bind {A B : Type} (c : io A) (f : A -> io B) : io B :=
  match c with
  | (tr, Returned a) => let (tr', o) := f a in ((tr ++ tr')%list, o)
  | (tr, Raised e) => (tr, Raised e)
  end.

Definition emit (e : event) : io unit := ([e], Returned tt).

(** A call to a collaborator: the call is recorded, then its outcome is
    the handler's. *)
Definition call {A : Type} (e : event) (o : outcome A) : io A := ([e], o).

Declare Scope io_scope.
Delimit Scope io_scope with io.
Notation "x <- c ;; k" := (io_bind c (fun x => k))
  (at level 61, c at next level, right associativity) : io_scope.
Notation "c ;; k" := (io_bind c (fun _ => k))
  (at level 61, right associativity) : io_scope.

(** [if v: ...] on an optional float: [None] and zero are false. *)
Definition truthy (v : option Q) : option Q :=
  match v with
  | Some q => if Qeq_bool q 0 then None else Some q
  | None => None
  end.

Definition contains (needle : string) (hay : string) : bool :=
  match index 0 needle hay with
  | Some _ => true
  | None => false
  end.

Definition is_quota_error (err_text : string) : bool :=
  contains "insufficient_quota" err_text || contains "Error code: 429" err_text.

Definition msg_offline_title : string := "Estimated Affordability (Offline)".

Definition msg_offline_guidance : string :=
  "Offline mode: I can estimate affordability if you include your monthly income in the question, e.g., 'I earn R20,000 per month — how much can I borrow?'".

Definition msg_unavailable : string :=
  "OpenAI unavailable. Showing offline estimate instead.".

Definition msg_quota_no_estimate : string :=
  "OpenAI quota exceeded and I couldn't compute an estimate. Try including your monthly income in the question.".

Definition msg_quota_no_income : string :=
  "OpenAI quota exceeded. Add billing in your OpenAI account or enable Offline mode in the sidebar and include your monthly income for a quick estimate.".

Local Open Scope io_scope.

(** The block under [if offline_mode or client is None]; its value is
    [used_offline]. *)
Definition offline_branch (default_rate : Q) (default_years repayment_ratio : Z)
    (user_input : string) : io bool :=
  income <- call (Call_parse user_input)
                 (parse_income_from_text (Some user_input)) ;;
  used_offline <-
    match truthy income with
    | Some inc =>
        est <- call (Call_estimate inc default_rate default_years repayment_ratio)
                    (estimate_loan_amount inc default_rate default_years
                                          repayment_ratio) ;;
        match truthy est with
        | Some e =>
            emit (St_success msg_offline_title) ;;
            emit (St_write (Estimate_report e inc default_rate default_years
                                            repayment_ratio)) ;;
            io_ret true
        | None => io_ret false
        end
    | None => io_ret false
    end ;;
  (if negb used_offline then emit (St_info msg_offline_guidance) else io_ret tt) ;;
  io_ret used_offline.

(** The [except Exception as e] block of the OpenAI call. *)
Definition on_remote_failure (default_rate : Q) (default_years repayment_ratio : Z)
    (user_input err_text : string) : io unit :=
  let quota_err := is_quota_error err_text in
  if quota_err then
    income <- call (Call_parse user_input)
                   (parse_income_from_text (Some user_input)) ;;
    match truthy income with
    | Some inc =>
        est <- call (Call_estimate inc default_rate default_years repayment_ratio)
                    (estimate_loan_amount inc default_rate default_years
                                          repayment_ratio) ;;
        match truthy est with
        | Some e =>
            emit (St_warning msg_unavailable) ;;
            emit (St_success msg_offline_title) ;;
            emit (St_write (Estimate_report e inc default_rate default_years
                                            repayment_ratio))
        | None => emit (St_error (Text msg_quota_no_estimate))
        end
    | None => emit (St_error (Text msg_quota_no_income))
    end
  else emit (St_error (Error_calling err_text)).

Definition is_none {A : Type} (o : option A) : bool :=
  match o with
  | Some _ => false
  | None => true
  end.

(** The block under [if user_input:].  [client] is [None] when no API key
    was found. *)
Definition handle_query (offline_mode : bool) (client : option remote)
    (default_rate : Q) (default_years repayment_ratio : Z)
    (user_input : string) : io unit :=
  match user_input with
  | EmptyString => io_ret tt
  | _ =>
      used_offline <-
        (if offline_mode || is_none client
         then offline_branch default_rate default_years repayment_ratio user_input
         else io_ret false) ;;
      match client with
      | Some ask =>
          if negb offline_mode && negb used_offline then
            response <- call (Call_remote user_input)
                             (Returned (ask user_input)) ;;
            match response with
            | Answer content =>
                emit (St_success "Answer:") ;;
                emit (St_write (Text content))
            | Failure err_text =>
                on_remote_failure default_rate default_years repayment_ratio
                                  user_input err_text
            end
          else io_ret tt
      | None => io_ret tt
      end
  end.

Definition trace {A : Type} (c : io A) : list event := fst c.

Local Close Scope io_scope.
Local Close Scope string_scope.

(** * Vocabulary of the statements

    Shapes of texts, outcomes of a match, the two patterns cut at their
    marker, the formula of the specification, and two stock clients. *)

(** The first character is in the class. *)
Definition starts (p : ascii -> bool) (s : list ascii) : bool :=
  match s with
  | c :: _ => p c
  | [] => false
  end.

(** The number of leading characters in the class. *)
Fixpoint lead (p : ascii -> bool) (s : list ascii) : nat :=
  match s with
  | c :: s' => if p c then S (lead p s') else 0
  | [] => 0
  end.

(** The last character is in the class. *)
Fixpoint ends_in (p : ascii -> bool) (s : list ascii) : bool :=
  match s with
  | [] => false
  | c :: s' =>
      match s' with
      | [] => p c
      | _ :: _ => ends_in p s'
      end
  end.

(** Every digit run of [s] is shorter than [b], the first one being the
    continuation of [n] digits just before [s]. *)
Fixpoint runs_below (b n : nat) (s : list ascii) : bool :=
  match s with
  | [] => true
  | c :: s' =>
      if is_digit c then (S n <? b) && runs_below b (S n) s'
      else runs_below b 0 s'
  end.

Definition no_digit (s : list ascii) : bool :=
  forallb (fun c => negb (is_digit c)) s.

Definition has_char (ch : ascii) (s : list ascii) : bool :=
  existsb (fun c => Ascii.eqb c ch) s.

(** A text [float] converts: [digits] or [digits.digits]. *)
Inductive numeral : list ascii -> Prop :=
| numeral_int ip :
    ip <> [] -> forallb is_digit ip = true -> numeral ip
| numeral_frac ip fp :
    ip <> [] -> forallb is_digit ip = true ->
    fp <> [] -> forallb is_digit fp = true ->
    numeral (ip ++ "."%char :: fp).

(** A result that is a match with the property [good]. *)
Definition matched (good : captures -> Prop) (res : option captures) : Prop :=
  exists m, res = Some m /\ good m.

(** A result that is no match, or a match with the property [good]. *)
Definition none_or (good : captures -> Prop) (res : option captures) : Prop :=
  res = None \/ matched good res.

(** The pattern after the marker, continued by acceptance. *)
Definition plain_digits (prev rest : list ascii) (caps : captures)
  : option captures :=
  rmatch (Cat (Grp 2 (Rep is_digit 4 (Some 7))) (Alt Bnd (Cls is_space)))
         prev rest caps accept.

(** The marker taken: [r], blanks, then the digits. *)
Definition plain_marked (prev rest : list ascii) : option captures :=
  match rest with
  | x :: rest' =>
      if Ascii.eqb x "r" then
        rep is_space 0 None 0 (x :: prev) rest' []
            (fun prev' rest'' caps' =>
               plain_digits prev' rest'' (set_group 1 (slice prev prev') caps'))
      else None
  | [] => None
  end.

(** Blanks, [k] and the boundary, continued by acceptance. *)
Definition k_tail (prev rest : list ascii) (caps : captures) : option captures :=
  rmatch (Cat (Rep is_space 0 None) (Cat (Lit "k") Bnd)) prev rest caps accept.

(** The end of group 2, which began at [start]. *)
Definition k_close (start : list ascii) : cont :=
  fun prev rest caps => k_tail prev rest (set_group 2 (slice start prev) caps).

(** After the integer part: the optional fraction, then the end of the group. *)
Definition k_fraction (start : list ascii) : cont :=
  fun prev rest caps =>
    match
      match rest with
      | x :: rest' =>
          if Ascii.eqb x "." then
            rep is_digit 1 None 0 (x :: prev) rest' caps (k_close start)
          else None
      | [] => None
      end
    with
    | Some m => Some m
    | None => k_close start prev rest caps
    end.

(** The pattern after the marker. *)
Definition k_number (prev rest : list ascii) (caps : captures) : option captures :=
  rep is_digit 1 None 0 prev rest caps (k_fraction prev).

Definition k_marked (prev rest : list ascii) : option captures :=
  match rest with
  | x :: rest' =>
      if Ascii.eqb x "r" then
        rep is_space 0 None 0 (x :: prev) rest' []
            (fun prev' rest'' caps' =>
               k_number prev' rest'' (set_group 1 (slice prev prev') caps'))
      else None
  | [] => None
  end.

Local Open Scope Q_scope.

(** The claim's words: the periodic rate, the affordable payment and the
    value C1 gives for the estimate. *)
Definition periodic_rate (annualRatePct : Q) : Q := (annualRatePct / 100) / 12.

Definition affordable (monthlyIncome : Q) (repaymentPct : Z) : Q :=
  monthlyIncome * (inject_Z repaymentPct / 100).

Definition annuity_value (monthlyIncome annualRatePct : Q)
    (termYears repaymentPct : Z) : Q :=
  let affordablePayment := affordable monthlyIncome repaymentPct in
  let r := periodic_rate annualRatePct in
  let n := (termYears * 12)%Z in
  if Qle_bool r 0 then affordablePayment * inject_Z n
  else affordablePayment * (1 - (1 + r) ^ (- n)) / r.

(** A power that may raise, as [**] on binary64 does outside the range of
    floats, and that is the power where it returns. *)
Definition exact_where_returned (pow : Q -> Z -> outcome Q) : Prop :=
  forall (b : Q) (e : Z) (p : Q), pow b e = Returned p -> p == b ^ e.

Local Close Scope Q_scope.

(** A result the policy takes for false: [None], or zero. *)
Definition zero_or_absent (v : option Q) : Prop :=
  match v with
  | Some q => (q == 0)%Q
  | None => True
  end.

Definition answering (content : string) : remote := fun _ => Answer content.

Definition failing (err_text : string) : remote := fun _ => Failure err_text.

(** * More of the code

    The format field [:,.0f] of the two f-strings that print the bond
    amount and the income, and the bounds of the three sidebar widgets. *)

(** [round] to the nearest integer, ties to the even one, as the format
    types [f] use it. *)
Definition round_half_even (q : Q) : Z :=
  let f := Qfloor q in
  match (q - inject_Z f ?= 1 # 2)%Q with
  | Lt => f
  | Gt => (f + 1)%Z
  | Eq => if Z.even f then f else (f + 1)%Z
  end.

Definition digit_char (d : Z) : ascii := ascii_of_nat (48 + Z.to_nat d).

(** The decimal digits of [n >= 0] in front of [acc], at most [fuel] of them. *)
Fixpoint digits_of (fuel : nat) (n : Z) (acc : list ascii) : list ascii :=
  match fuel with
  | O => acc
  | S fuel' =>
      let acc' := digit_char (n mod 10) :: acc in
      if (n <? 10)%Z then acc' else digits_of fuel' (n / 10) acc'
  end.

(** The decimal numeral of [n >= 0]; a number has no more decimal digits
    than binary ones. *)
Definition decimal (n : Z) : list ascii :=
  digits_of (S (Z.to_nat (Z.log2 n))) n [].

(** The option [,] of a format field, on the digits from the right, [i] of
    them already in the current group: a comma in front of every fourth. *)
Fixpoint group_right (i : nat) (rd : list ascii) : list ascii :=
  match rd with
  | [] => []
  | d :: rd' =>
      if i =? 3 then ","%char :: d :: group_right 1 rd'
      else d :: group_right (S i) rd'
  end.

Definition grouped (ds : list ascii) : list ascii :=
  rev (group_right 0 (rev ds)).

(** [f"{x:,.0f}"]: the sign of a negative number, then the rounded
    magnitude with thousands separators. *)
Definition format_money (x : Q) : list ascii :=
  (if Qlt_le_dec x 0 then ["-"%char] else [])
    ++ grouped (decimal (Z.abs (round_half_even x))).

(** The piece [R{x:,.0f}] of the report. *)
Definition shown_amount (x : Q) : string :=
  String "R" (string_of_list_ascii (format_money x)).

(** The ranges of [st.sidebar.number_input] and [st.sidebar.slider]: the
    rate in [5.0, 25.0], the term in [5, 30], the repayment percentage in
    [10, 40]. *)
Definition within_sidebar (default_rate : Q) (default_years repayment_ratio : Z)
  : Prop :=
  (5 <= default_rate)%Q /\ (default_rate <= 25)%Q
  /\ (5 <= default_years)%Z /\ (default_years <= 30)%Z
  /\ (10 <= repayment_ratio)%Z /\ (repayment_ratio <= 40)%Z.

(** * More vocabulary *)

(** Every [k] of the text has a word character right after it. *)
Fixpoint k_glued (s : list ascii) : bool :=
  match s with
  | [] => true
  | c :: s' => (negb (Ascii.eqb c "k") || starts is_word s') && k_glued s'
  end.

Definition is_remote_call (e : event) : bool :=
  match e with Call_remote _ => true | _ => false end.

Definition is_parse_call (e : event) : bool :=
  match e with Call_parse _ => true | _ => false end.

Definition is_estimate_call (e : event) : bool :=
  match e with Call_estimate _ _ _ _ => true | _ => false end.

(** Something the user sees. *)
Definition is_output (e : event) : bool :=
  match e with
  | St_success _ | St_write _ | St_info _ | St_warning _ | St_error _ => true
  | _ => false
  end.

Definition count (f : event -> bool) (tr : list event) : nat :=
  length (filter f tr).

(** The body of an answer: what [st.write], [st.info] and [st.error]
    show, as opposed to the headings of [st.success] and [st.warning]. *)
Definition is_body (e : event) : bool :=
  match e with
  | St_write _ | St_info _ | St_error _ => true
  | _ => false
  end.

(** The last event of a run. *)
Definition final (tr : list event) : option event := hd_error (rev tr).

(** [needle in hay] as a statement: the text holds the needle somewhere. *)
Definition occurs (needle hay : string) : Prop :=
  exists pre post : string, hay = (pre ++ (needle ++ post))%string.

(** The present value of [n] payments, one at the end of each period. *)
Fixpoint discounted_sum (payment r : Q) (n : nat) : Q :=
  match n with
  | O => 0%Q
  | S n' => (discounted_sum payment r n' + payment * (1 + r) ^ (- Z.of_nat n))%Q
  end.

(** What is owed after [k] periods: interest on the balance, then the
    payment. *)
Fixpoint balance (principal payment r : Q) (k : nat) : Q :=
  match k with
  | O => principal
  | S k' => (balance principal payment r k' * (1 + r) - payment)%Q
  end.

(** * Facts about the character classes *)

Lemma digit_not_space c : is_digit c = true -> is_space c = false.
Proof. destruct c as [[] [] [] [] [] [] [] []]; vm_compute; congruence. Qed.

Lemma digit_is_word c : is_digit c = true -> is_word c = true.
Proof. destruct c as [[] [] [] [] [] [] [] []]; vm_compute; congruence. Qed.

Lemma digit_not_r c : is_digit c = true -> Ascii.eqb c "r" = false.
Proof. destruct c as [[] [] [] [] [] [] [] []]; vm_compute; congruence. Qed.

Lemma space_not_dot c : is_space c = true -> Ascii.eqb c "." = false.
Proof. destruct c as [[] [] [] [] [] [] [] []]; vm_compute; congruence. Qed.

(** * Facts about the matcher *)

Lemma prefix_lead p a b : forallb p a = true -> length a <= lead p (a ++ b).
Proof.
  induction a as [|x a IH]; simpl; intros H; [lia|].
  apply andb_prop in H as [Hx Ha]. rewrite Hx. specialize (IH Ha). lia.
Qed.

Lemma span_app_stop p a b :
  forallb p a = true -> starts p b = false -> span p (a ++ b) = (a, b).
Proof.
  induction a as [|x a IH]; simpl; intros Ha Hb.
  - destruct b as [|c b]; simpl in *; [reflexivity | now rewrite Hb].
  - apply andb_prop in Ha as [Hx Ha]. rewrite Hx. now rewrite IH.
Qed.

Lemma slice_app prev a : slice prev (rev a ++ prev) = a.
Proof.
  unfold slice. rewrite length_app, Nat.add_sub.
  rewrite firstn_app, firstn_all, Nat.sub_diag. simpl.
  rewrite app_nil_r. apply rev_involutive.
Qed.

Lemma search_from_eq r prev rest :
  search_from r prev rest =
  match match_here r prev rest with
  | Some m => Some m
  | None =>
      match rest with
      | [] => None
      | c :: rest' => search_from r (c :: prev) rest'
      end
  end.
Proof. destruct rest; reflexivity. Qed.

Section Repetition.

Variables (p : ascii -> bool) (lo : nat) (hi : option nat).
Variables (caps : captures) (k : cont).

(** Whatever [rep] returns, it is nothing or what the continuation
    returns after some admissible run. *)
Lemma rep_elim (P : option captures -> Prop) :
  P None ->
  forall rest n prev,
    (forall a b, rest = a ++ b -> forallb p a = true -> lo <= n + length a ->
                 P (k (rev a ++ prev) b caps)) ->
    P (rep p lo hi n prev rest caps k).
Proof.
  intros HN rest.
  induction rest as [|c rest IH]; intros n prev H.
  - simpl. destruct (lo <=? n) eqn:E; [|exact HN].
    apply Nat.leb_le in E. apply (H [] []); simpl; auto; lia.
  - assert (Hstop : P (if lo <=? n then k prev (c :: rest) caps else None)).
    { destruct (lo <=? n) eqn:E; [|exact HN].
      apply Nat.leb_le in E. apply (H [] (c :: rest)); simpl; auto; lia. }
    simpl. destruct (p c && below hi n) eqn:E; [|exact Hstop].
    destruct (rep p lo hi (S n) (c :: prev) rest caps k) eqn:R; [|exact Hstop].
    rewrite <- R. apply IH. intros a b -> Ha Hlen.
    apply andb_prop in E as [Hc _].
    specialize (H (c :: a) b). simpl in H.
    rewrite <- app_assoc in H. apply H; auto.
    + now rewrite Hc.
    + lia.
Qed.

(** Fewer characters of the class than the lower bound: no match. *)
Lemma rep_short rest n prev :
  n + lead p rest < lo -> rep p lo hi n prev rest caps k = None.
Proof.
  intros H. apply rep_elim with (P := fun res => res = None); [reflexivity|].
  intros a b -> Ha Hlen. pose proof (prefix_lead p a b Ha). lia.
Qed.

(** The longest run is tried first: when the continuation matches after
    it, that match is the result. *)
Lemma rep_greedy (good : captures -> Prop) a b :
  forall n prev,
    forallb p a = true -> starts p b = false ->
    lo <= n + length a ->
    match hi with Some h => n + length a <= h | None => True end ->
    matched good (k (rev a ++ prev) b caps) ->
    matched good (rep p lo hi n prev (a ++ b) caps k).
Proof.
  induction a as [|x a IH]; intros n prev Ha Hb Hlo Hhi Hk.
  - simpl in *. rewrite Nat.add_0_r in Hlo. apply Nat.leb_le in Hlo.
    destruct b as [|c b]; simpl in *; [now rewrite Hlo|].
    now rewrite Hb, Hlo.
  - simpl in Ha. apply andb_prop in Ha as [Hx Ha]. simpl in Hlo, Hhi.
    assert (Hbelow : below hi n = true).
    { destruct hi; simpl; [apply Nat.ltb_lt; lia | reflexivity]. }
    simpl. rewrite Hx, Hbelow. simpl.
    destruct (IH (S n) (x :: prev)) as [m [Hm HQ]]; auto.
    + lia.
    + destruct hi; [lia | exact I].
    + simpl in Hk. now rewrite <- app_assoc in Hk.
    + rewrite Hm. now exists m.
Qed.

End Repetition.

(** * The plain pattern *)

Lemma match_here_plain prev rest :
  match_here plain_pattern prev rest =
  match plain_marked prev rest with
  | Some m => Some m
  | None => plain_digits prev rest []
  end.
Proof. destruct rest; reflexivity. Qed.

Lemma word_before_digits run prev :
  run <> [] -> forallb is_digit run = true ->
  word_before (rev run ++ prev) = true.
Proof.
  intros Hne Hd.
  destruct (rev run) as [|c l] eqn:E.
  - apply (f_equal (@rev ascii)) in E. rewrite rev_involutive in E.
    simpl in E. contradiction.
  - simpl. apply digit_is_word.
    rewrite forallb_forall in Hd. apply Hd.
    apply in_rev. rewrite E. now left.
Qed.

Lemma starts_word_digit s : starts is_word s = false -> starts is_digit s = false.
Proof.
  destruct s as [|c s]; simpl; [reflexivity|].
  intros H. destruct (is_digit c) eqn:E; [|reflexivity].
  apply digit_is_word in E. congruence.
Qed.

Lemma plain_digits_short prev rest caps :
  lead is_digit rest < 4 -> plain_digits prev rest caps = None.
Proof.
  intros H. unfold plain_digits. simpl. now apply rep_short.
Qed.

Lemma plain_marked_digits prev run rest :
  run <> [] -> forallb is_digit run = true ->
  plain_marked prev (run ++ rest) = None.
Proof.
  destruct run as [|c run']; [contradiction|].
  simpl. intros _ H. apply andb_prop in H as [Hc _].
  now rewrite (digit_not_r c Hc).
Qed.

Lemma digits_after_blank run rest y a b :
  run <> [] -> forallb is_digit run = true ->
  run ++ rest = (y :: a) ++ b -> is_space y = true -> False.
Proof.
  destruct run as [|c run']; [contradiction|].
  simpl. intros _ H Heq Hy. apply andb_prop in H as [Hc _].
  injection Heq as <- _. apply digit_not_space in Hc. congruence.
Qed.

Section PlainRun.

Variables run post : list ascii.
Hypothesis run_digits : forallb is_digit run = true.
Hypothesis run_min : 4 <= length run.
Hypothesis run_max : length run <= 7.
Hypothesis post_bound : starts is_word post = false.

Lemma run_nonempty : run <> [].
Proof. intros ->. simpl in run_min. lia. Qed.

Lemma plain_digits_run prev caps :
  matched (fun m => group 2 m = Some run) (plain_digits prev (run ++ post) caps).
Proof.
  unfold plain_digits. simpl.
  apply rep_greedy; auto using starts_word_digit.
  unfold at_boundary.
  rewrite (word_before_digits run prev run_nonempty run_digits).
  change (word_after post) with (starts is_word post).
  rewrite post_bound. simpl. unfold accept.
  eexists. split; [reflexivity|].
  simpl. now rewrite slice_app.
Qed.

Lemma match_here_plain_run prev :
  matched (fun m => group 2 m = Some run) (match_here plain_pattern prev (run ++ post)).
Proof.
  rewrite match_here_plain.
  rewrite (plain_marked_digits prev run post run_nonempty run_digits).
  apply plain_digits_run.
Qed.

(** In front of the run, a digit run that does not reach it is too short. *)
Lemma short_lead u w :
  forall n, u <> [] -> n < 4 ->
    runs_below 4 n u = true -> ends_in is_digit u = false ->
    n + lead is_digit (u ++ w) < 4.
Proof.
  induction u as [|c u' IH]; intros n Hne Hn Hr He; [contradiction|].
  simpl in Hr |- *. destruct (is_digit c) eqn:Hc; [|lia].
  apply andb_prop in Hr as [Hlt Hr]. apply Nat.ltb_lt in Hlt.
  destruct u' as [|d u''].
  - simpl in He. congruence.
  - assert (S n + lead is_digit ((d :: u'') ++ w) < 4).
    { apply IH; auto. discriminate. }
    lia.
Qed.

(** Blanks, then at least four digits: the blanks end where the run begins. *)
Lemma aligned pre :
  forall a b,
    pre ++ run ++ post = a ++ b ->
    forallb is_space a = true ->
    4 <= lead is_digit b ->
    runs_below 4 0 pre = true -> ends_in is_digit pre = false ->
    b = run ++ post.
Proof.
  induction pre as [|x pre' IH]; intros a b Heq Ha Hb Hr He.
  - destruct a as [|y a']; [now simpl in Heq|].
    exfalso. simpl in Ha. apply andb_prop in Ha as [Hy _].
    exact (digits_after_blank run post y a' b run_nonempty run_digits Heq Hy).
  - destruct a as [|y a'].
    + exfalso. simpl in Heq. subst b.
      pose proof (short_lead (x :: pre') (run ++ post) 0) as H.
      change ((x :: pre') ++ run ++ post) with (x :: pre' ++ run ++ post) in H.
      specialize (H ltac:(discriminate) ltac:(lia) Hr He). lia.
    + simpl in Heq, Ha. injection Heq as <- Heq.
      apply andb_prop in Ha as [Hx Ha].
      assert (Hd : is_digit x = false).
      { destruct (is_digit x) eqn:E; [|reflexivity].
        apply digit_not_space in E. congruence. }
      simpl in Hr. rewrite Hd in Hr.
      apply (IH a' b Heq Ha Hb Hr).
      simpl in He. destruct pre'; [reflexivity | exact He].
Qed.

Lemma match_here_plain_before c pre prev n :
  n < 4 ->
  runs_below 4 n (c :: pre) = true -> ends_in is_digit (c :: pre) = false ->
  none_or (fun m => group 2 m = Some run) (match_here plain_pattern prev (c :: pre ++ run ++ post)).
Proof.
  intros Hn Hr He. rewrite match_here_plain.
  assert (Hlast : plain_digits prev (c :: pre ++ run ++ post) [] = None).
  { apply plain_digits_short.
    pose proof (short_lead (c :: pre) (run ++ post) n) as H.
    specialize (H ltac:(discriminate) Hn Hr He).
    change ((c :: pre) ++ run ++ post) with (c :: pre ++ run ++ post) in H.
    lia. }
  assert (Hmark : none_or (fun m => group 2 m = Some run) (plain_marked prev (c :: pre ++ run ++ post))).
  { simpl. destruct (Ascii.eqb c "r") eqn:Ec; [|now left].
    apply Ascii.eqb_eq in Ec. subst c. simpl in Hr.
    apply rep_elim; [now left|].
    intros a b Heq Ha _.
    destruct (Nat.lt_ge_cases (lead is_digit b) 4) as [Hlt|Hge].
    - left. now apply plain_digits_short.
    - right. rewrite (aligned pre a b Heq Ha Hge Hr).
      + apply plain_digits_run.
      + simpl in He. destruct pre; [reflexivity | exact He]. }
  destruct Hmark as [-> | [m [-> Hm]]].
  - left. exact Hlast.
  - right. now exists m.
Qed.

(** The search stops at the first run of four to seven digits that ends
    at a word boundary. *)
Lemma search_plain_run pre :
  forall n prev,
    n < 4 -> runs_below 4 n pre = true -> ends_in is_digit pre = false ->
    matched (fun m => group 2 m = Some run) (search_from plain_pattern prev (pre ++ run ++ post)).
Proof.
  induction pre as [|c pre' IH]; intros n prev Hn Hr He.
  - simpl app.
    destruct (match_here_plain_run prev) as [m [Hm HQ]].
    rewrite search_from_eq, Hm. now exists m.
  - change ((c :: pre') ++ run ++ post) with (c :: pre' ++ run ++ post).
    destruct (match_here_plain_before c pre' prev n Hn Hr He)
      as [Hnone | [m [Hm HQ]]].
    + rewrite search_from_eq, Hnone.
      simpl in Hr. destruct (is_digit c) eqn:Hc.
      * apply andb_prop in Hr as [Hlt Hr]. apply Nat.ltb_lt in Hlt.
        apply (IH (S n)); [exact Hlt | exact Hr |].
        simpl in He. destruct pre'; [congruence | exact He].
      * apply (IH 0); [lia | exact Hr |].
        simpl in He. destruct pre'; [reflexivity | exact He].
    + rewrite search_from_eq, Hm. now exists m.
Qed.

End PlainRun.

Lemma lead_runs_below s :
  forall n, n < 4 -> runs_below 4 n s = true -> n + lead is_digit s < 4.
Proof.
  induction s as [|c s IH]; intros n Hn Hr; simpl in *; [lia|].
  destruct (is_digit c); [|lia].
  apply andb_prop in Hr as [Hlt Hr]. apply Nat.ltb_lt in Hlt.
  specialize (IH (S n) Hlt Hr). lia.
Qed.

Lemma runs_below_blanks a b :
  forallb is_space a = true -> runs_below 4 0 (a ++ b) = runs_below 4 0 b.
Proof.
  induction a as [|x a IH]; simpl; intros H; [reflexivity|].
  apply andb_prop in H as [Hx Ha].
  destruct (is_digit x) eqn:E.
  - apply digit_not_space in E. congruence.
  - now apply IH.
Qed.

Lemma match_here_plain_short prev rest n :
  n < 4 -> runs_below 4 n rest = true ->
  match_here plain_pattern prev rest = None.
Proof.
  intros Hn Hr. rewrite match_here_plain.
  assert (Hlast : plain_digits prev rest [] = None).
  { apply plain_digits_short. pose proof (lead_runs_below rest n Hn Hr). lia. }
  assert (Hmark : plain_marked prev rest = None).
  { destruct rest as [|c rest]; [reflexivity|].
    simpl. destruct (Ascii.eqb c "r") eqn:Ec; [|reflexivity].
    apply Ascii.eqb_eq in Ec. subst c. simpl in Hr.
    apply rep_elim with (P := fun res => res = None); [reflexivity|].
    intros a b -> Ha _. rewrite (runs_below_blanks a b Ha) in Hr.
    apply plain_digits_short.
    pose proof (lead_runs_below b 0 ltac:(lia) Hr). lia. }
  now rewrite Hmark.
Qed.

(** Without a run of four digits the plain pattern matches nowhere. *)
Lemma search_plain_short rest :
  forall n prev,
    n < 4 -> runs_below 4 n rest = true ->
    search_from plain_pattern prev rest = None.
Proof.
  induction rest as [|c rest IH]; intros n prev Hn Hr;
    rewrite search_from_eq, (match_here_plain_short prev _ n Hn Hr);
    [reflexivity|].
  simpl in Hr. destruct (is_digit c).
  - apply andb_prop in Hr as [Hlt Hr]. apply Nat.ltb_lt in Hlt.
    now apply (IH (S n)).
  - apply (IH 0); [lia | exact Hr].
Qed.

(** * The shorthand pattern *)

Lemma match_here_k prev rest :
  match_here k_pattern prev rest =
  match k_marked prev rest with
  | Some m => Some m
  | None => k_number prev rest []
  end.
Proof. destruct rest; reflexivity. Qed.

Lemma py_float_int ip :
  ip <> [] -> forallb is_digit ip = true ->
  py_float (Some ip) = Returned (dec_value ip []).
Proof.
  intros Hne Hd. unfold py_float.
  rewrite <- (app_nil_r ip) at 1.
  rewrite (span_app_stop is_digit ip [] Hd eq_refl).
  destruct ip; [contradiction | reflexivity].
Qed.

Lemma py_float_frac ip fp :
  ip <> [] -> forallb is_digit ip = true ->
  fp <> [] -> forallb is_digit fp = true ->
  py_float (Some (ip ++ "."%char :: fp)) = Returned (dec_value ip fp).
Proof.
  intros Hne Hd Hfne Hfd. unfold py_float.
  rewrite (span_app_stop is_digit ip ("."%char :: fp) Hd eq_refl).
  destruct ip as [|c ip]; [contradiction|].
  rewrite Hfd. destruct fp; [contradiction | reflexivity].
Qed.

Lemma py_float_numeral s : numeral s -> exists v, py_float (Some s) = Returned v.
Proof.
  intros [ip Hne Hd | ip fp Hne Hd Hfne Hfd].
  - eexists. now apply py_float_int.
  - eexists. now apply py_float_frac.
Qed.

Lemma longer_nonempty (a : list ascii) n : n < length a -> a <> [].
Proof. intros H ->. simpl in H. lia. Qed.

Lemma k_tail_caps prev rest caps m : k_tail prev rest caps = Some m -> m = caps.
Proof.
  unfold k_tail. simpl. revert m.
  apply rep_elim with (P := fun res => forall m, res = Some m -> m = caps);
    [discriminate|].
  intros a b _ _ _ m.
  destruct b as [|x b]; [discriminate|].
  destruct (Ascii.eqb x "k"); [|discriminate].
  destruct (at_boundary (x :: rev a ++ prev) b); [|discriminate].
  unfold accept. congruence.
Qed.

Lemma k_tail_match ws post prev caps :
  forallb is_space ws = true -> starts is_word post = false ->
  k_tail prev (ws ++ "k"%char :: post) caps = Some caps.
Proof.
  intros Hws Hpost.
  assert (H : matched (eq caps) (k_tail prev (ws ++ "k"%char :: post) caps)).
  { unfold k_tail. simpl. apply rep_greedy; auto; [lia|].
    unfold at_boundary. simpl word_before.
    change (word_after post) with (starts is_word post). rewrite Hpost.
    now exists caps. }
  destruct H as [m [Hm <-]]. exact Hm.
Qed.

Lemma k_number_sound prev rest caps m :
  k_number prev rest caps = Some m ->
  exists s, numeral s /\ group 2 m = Some s.
Proof.
  unfold k_number. revert m.
  apply rep_elim
    with (P := fun res => forall m, res = Some m ->
                 exists s, numeral s /\ group 2 m = Some s);
    [discriminate|].
  intros a b _ Ha Hlen m. simpl in Hlen.
  assert (Hane : a <> []) by (apply (longer_nonempty a 0); lia).
  unfold k_fraction.
  assert (Hclose : forall m,
            k_close prev (rev a ++ prev) b caps = Some m ->
            exists s, numeral s /\ group 2 m = Some s).
  { intros m' H. unfold k_close in H. apply k_tail_caps in H. subst m'.
    exists a. split; [now constructor|]. simpl. now rewrite slice_app. }
  destruct b as [|x b]; [exact (Hclose m)|].
  destruct (Ascii.eqb x ".") eqn:Ex; [|exact (Hclose m)].
  apply Ascii.eqb_eq in Ex. subst x.
  destruct (rep is_digit 1 None 0 ("."%char :: rev a ++ prev) b caps
                (k_close prev)) eqn:R; [|exact (Hclose m)].
  intros Hm. injection Hm as <-. revert c R.
  apply rep_elim
    with (P := fun res => forall m, res = Some m ->
                 exists s, numeral s /\ group 2 m = Some s);
    [discriminate|].
  intros a2 b2 _ Ha2 Hlen2 m2 H. simpl in Hlen2.
  assert (Ha2ne : a2 <> []) by (apply (longer_nonempty a2 0); lia).
  unfold k_close in H. apply k_tail_caps in H. subst m2.
  exists (a ++ "."%char :: a2). split; [now constructor|].
  simpl. f_equal.
  replace (rev a2 ++ "."%char :: rev a ++ prev)
    with (rev (a ++ "."%char :: a2) ++ prev).
  - apply slice_app.
  - rewrite rev_app_distr. simpl. now rewrite <- !app_assoc.
Qed.

Lemma k_number_nondigit prev rest caps :
  starts is_digit rest = false -> k_number prev rest caps = None.
Proof.
  intros H. unfold k_number. apply rep_short.
  destruct rest as [|c rest]; simpl in *; [lia|]. rewrite H. lia.
Qed.

Lemma match_here_k_sound prev rest m :
  match_here k_pattern prev rest = Some m ->
  exists s, numeral s /\ group 2 m = Some s.
Proof.
  rewrite match_here_k.
  destruct (k_marked prev rest) as [m'|] eqn:E.
  - intros H. injection H as <-. revert m' E. unfold k_marked.
    destruct rest as [|x rest]; [discriminate|].
    destruct (Ascii.eqb x "r"); [|discriminate].
    apply rep_elim
      with (P := fun res => forall m, res = Some m ->
                   exists s, numeral s /\ group 2 m = Some s);
      [discriminate|].
    intros a b _ _ _ m H. now apply k_number_sound in H.
  - apply k_number_sound.
Qed.

Lemma search_from_sound r rest :
  forall prev m,
    search_from r prev rest = Some m ->
    exists prev' rest', match_here r prev' rest' = Some m.
Proof.
  induction rest as [|c rest IH]; intros prev m; rewrite search_from_eq.
  - destruct (match_here r prev []) eqn:E; [|discriminate].
    intros H. injection H as <-. eauto.
  - destruct (match_here r prev (c :: rest)) eqn:E.
    + intros H. injection H as <-. eauto.
    + apply IH.
Qed.

Lemma starts_blanks_k ws post :
  forallb is_space ws = true ->
  starts is_digit (ws ++ "k"%char :: post) = false.
Proof.
  destruct ws as [|x ws]; simpl; [reflexivity|].
  intros H. apply andb_prop in H as [Hx _].
  destruct (is_digit x) eqn:E; [|reflexivity].
  apply digit_not_space in E. congruence.
Qed.

Lemma k_close_match start consumed ws post caps :
  forallb is_space ws = true -> starts is_word post = false ->
  matched (fun m => group 2 m = Some consumed)
          (k_close start (rev consumed ++ start) (ws ++ "k"%char :: post) caps).
Proof.
  intros Hws Hpost. unfold k_close. rewrite (k_tail_match ws post _ _ Hws Hpost).
  eexists. split; [reflexivity|]. simpl. now rewrite slice_app.
Qed.

Lemma k_number_int ip ws post prev caps :
  ip <> [] -> forallb is_digit ip = true ->
  forallb is_space ws = true -> starts is_word post = false ->
  matched (fun m => group 2 m = Some ip)
          (k_number prev (ip ++ ws ++ "k"%char :: post) caps).
Proof.
  intros Hne Hd Hws Hpost. unfold k_number.
  apply rep_greedy; auto using starts_blanks_k.
  { destruct ip; [contradiction | simpl; lia]. }
  unfold k_fraction.
  assert (Hdot :
            match ws ++ "k"%char :: post with
            | x :: rest' =>
                if Ascii.eqb x "." then
                  rep is_digit 1 None 0 (x :: rev ip ++ prev) rest' caps
                      (k_close prev)
                else None
            | [] => None
            end = None).
  { destruct ws as [|x ws']; [reflexivity|].
    simpl in Hws |- *. apply andb_prop in Hws as [Hx _].
    now rewrite (space_not_dot x Hx). }
  rewrite Hdot. now apply k_close_match.
Qed.

Lemma k_number_frac ip fp ws post prev caps :
  ip <> [] -> forallb is_digit ip = true ->
  fp <> [] -> forallb is_digit fp = true ->
  forallb is_space ws = true -> starts is_word post = false ->
  matched (fun m => group 2 m = Some (ip ++ "."%char :: fp))
          (k_number prev ((ip ++ "."%char :: fp) ++ ws ++ "k"%char :: post) caps).
Proof.
  intros Hne Hd Hfne Hfd Hws Hpost. unfold k_number.
  rewrite <- app_assoc. simpl app.
  apply rep_greedy; auto.
  { destruct ip; [contradiction | simpl; lia]. }
  unfold k_fraction. simpl.
  assert (H : matched (fun m => group 2 m = Some (ip ++ "."%char :: fp))
                (rep is_digit 1 None 0 ("."%char :: rev ip ++ prev)
                     (fp ++ ws ++ "k"%char :: post) caps (k_close prev))).
  { apply rep_greedy; auto using starts_blanks_k.
    { destruct fp; [contradiction | simpl; lia]. }
    replace (rev fp ++ "."%char :: rev ip ++ prev)
      with (rev (ip ++ "."%char :: fp) ++ prev).
    - now apply k_close_match.
    - rewrite rev_app_distr. simpl. now rewrite <- !app_assoc. }
  destruct H as [m [Hm HQ]]. rewrite Hm. now exists m.
Qed.

Lemma k_number_match num ws post prev caps :
  numeral num ->
  forallb is_space ws = true -> starts is_word post = false ->
  matched (fun m => group 2 m = Some num)
          (k_number prev (num ++ ws ++ "k"%char :: post) caps).
Proof.
  intros [ip Hne Hd | ip fp Hne Hd Hfne Hfd] Hws Hpost.
  - now apply k_number_int.
  - now apply k_number_frac.
Qed.

Lemma numeral_starts num rest : numeral num -> starts is_digit (num ++ rest) = true.
Proof.
  intros [ip Hne Hd | ip fp Hne Hd Hfne Hfd];
    (destruct ip as [|c ip]; [contradiction|]);
    simpl in *; now apply andb_prop in Hd as [Hc _].
Qed.

(** Blanks, then a digit: the blanks end where the first digit of the
    text is. *)
Lemma aligned_k pre rest :
  forall a b,
    pre ++ rest = a ++ b ->
    forallb is_space a = true -> starts is_digit b = true ->
    no_digit pre = true -> starts is_digit rest = true ->
    b = rest.
Proof.
  induction pre as [|x pre IH]; intros a b Heq Ha Hb Hpre Hrest.
  - destruct a as [|y a]; [now simpl in Heq|].
    exfalso. simpl in Heq, Ha. apply andb_prop in Ha as [Hy _].
    subst rest. simpl in Hrest. apply digit_not_space in Hrest. congruence.
  - simpl in Hpre. apply andb_prop in Hpre as [Hx Hpre].
    apply negb_true_iff in Hx.
    destruct a as [|y a].
    + exfalso. simpl in Heq. subst b. simpl in Hb. congruence.
    + simpl in Heq, Ha. injection Heq as <- Heq.
      apply andb_prop in Ha as [_ Ha]. now apply (IH a b).
Qed.

Lemma match_here_k_number prev num ws post :
  numeral num ->
  forallb is_space ws = true -> starts is_word post = false ->
  matched (fun m => group 2 m = Some num)
          (match_here k_pattern prev (num ++ ws ++ "k"%char :: post)).
Proof.
  intros Hnum Hws Hpost. rewrite match_here_k.
  assert (Hmark : k_marked prev (num ++ ws ++ "k"%char :: post) = None).
  { pose proof (numeral_starts num (ws ++ "k"%char :: post) Hnum) as H.
    destruct (num ++ ws ++ "k"%char :: post) as [|c l]; [reflexivity|].
    simpl in H |- *. now rewrite (digit_not_r c H). }
  rewrite Hmark. now apply k_number_match.
Qed.

Lemma match_here_k_before prev c pre num ws post :
  numeral num ->
  forallb is_space ws = true -> starts is_word post = false ->
  no_digit (c :: pre) = true ->
  none_or (fun m => group 2 m = Some num)
          (match_here k_pattern prev (c :: pre ++ num ++ ws ++ "k"%char :: post)).
Proof.
  intros Hnum Hws Hpost Hpre. rewrite match_here_k.
  simpl in Hpre. apply andb_prop in Hpre as [Hc Hpre].
  apply negb_true_iff in Hc.
  rewrite (k_number_nondigit prev (c :: _) [] Hc).
  assert (Hmark : none_or (fun m => group 2 m = Some num)
            (k_marked prev (c :: pre ++ num ++ ws ++ "k"%char :: post))).
  { simpl. destruct (Ascii.eqb c "r"); [|now left].
    apply rep_elim; [now left|].
    intros a b Heq Ha _.
    destruct (starts is_digit b) eqn:Hb.
    - right.
      rewrite (aligned_k pre _ a b Heq Ha Hb Hpre (numeral_starts _ _ Hnum)).
      now apply k_number_match.
    - left. now apply k_number_nondigit. }
  destruct Hmark as [-> | [m [-> Hm]]]; [now left | right; now exists m].
Qed.

(** The search stops at the first number of the text when that number is
    followed by blanks and a whole-word [k]. *)
Lemma search_k_number pre num ws post :
  numeral num ->
  forallb is_space ws = true -> starts is_word post = false ->
  forall prev,
    no_digit pre = true ->
    matched (fun m => group 2 m = Some num)
            (search_from k_pattern prev (pre ++ num ++ ws ++ "k"%char :: post)).
Proof.
  intros Hnum Hws Hpost.
  induction pre as [|c pre IH]; intros prev Hpre; rewrite search_from_eq.
  - simpl app.
    destruct (match_here_k_number prev num ws post Hnum Hws Hpost)
      as [m [Hm HQ]].
    rewrite Hm. now exists m.
  - change ((c :: pre) ++ num ++ ws ++ "k"%char :: post)
      with (c :: pre ++ num ++ ws ++ "k"%char :: post).
    destruct (match_here_k_before prev c pre num ws post Hnum Hws Hpost Hpre)
      as [Hnone | [m [Hm HQ]]].
    + rewrite Hnone. apply IH.
      simpl in Hpre. now apply andb_prop in Hpre as [_ Hpre].
    + rewrite Hm. now exists m.
Qed.

(** * More on the two patterns *)

Lemma has_char_suffix ch a b : has_char ch (a ++ b) = false -> has_char ch b = false.
Proof.
  unfold has_char. rewrite existsb_app. intros H.
  now apply orb_false_iff in H as [_ H].
Qed.

Lemma k_tail_no_k prev rest caps :
  has_char "k" rest = false -> k_tail prev rest caps = None.
Proof.
  intros H. unfold k_tail. simpl.
  apply rep_elim with (P := fun res => res = None); [reflexivity|].
  intros a b -> _ _. apply has_char_suffix in H.
  destruct b as [|x b]; [reflexivity|].
  simpl in H. apply orb_false_iff in H as [Hx _]. now rewrite Hx.
Qed.

Lemma k_fraction_no_k start prev rest caps :
  has_char "k" rest = false -> k_fraction start prev rest caps = None.
Proof.
  intros H. unfold k_fraction.
  assert (Hclose : forall p r c, has_char "k" r = false ->
                                 k_close start p r c = None).
  { intros p r c Hr. unfold k_close. now apply k_tail_no_k. }
  rewrite (Hclose _ _ _ H).
  destruct rest as [|x rest]; [reflexivity|].
  destruct (Ascii.eqb x "."); [|reflexivity].
  replace (rep is_digit 1 None 0 (x :: prev) rest caps (k_close start))
    with (@None captures); [reflexivity|].
  symmetry. apply rep_elim with (P := fun res => res = None); [reflexivity|].
  intros a b -> _ _. apply Hclose.
  apply (has_char_suffix "k" (x :: a) b). exact H.
Qed.

Lemma k_number_no_k prev rest caps :
  has_char "k" rest = false -> k_number prev rest caps = None.
Proof.
  intros H. unfold k_number.
  apply rep_elim with (P := fun res => res = None); [reflexivity|].
  intros a b -> _ _. apply k_fraction_no_k. now apply has_char_suffix in H.
Qed.

Lemma match_here_k_no_k prev rest :
  has_char "k" rest = false -> match_here k_pattern prev rest = None.
Proof.
  intros H. rewrite match_here_k, (k_number_no_k prev rest [] H).
  destruct rest as [|x rest]; [reflexivity|].
  simpl. destruct (Ascii.eqb x "r"); [|reflexivity].
  replace (rep _ _ _ _ _ _ _ _) with (@None captures); [reflexivity|].
  symmetry. apply rep_elim with (P := fun res => res = None); [reflexivity|].
  intros a b -> _ _. apply k_number_no_k.
  apply (has_char_suffix "k" (x :: a) b). exact H.
Qed.

(** A text without the letter [k] has no shorthand. *)
Lemma search_k_no_k rest :
  forall prev, has_char "k" rest = false -> search_from k_pattern prev rest = None.
Proof.
  induction rest as [|c rest IH]; intros prev H;
    rewrite search_from_eq, (match_here_k_no_k prev _ H); [reflexivity|].
  apply IH. apply (has_char_suffix "k" [c] rest). exact H.
Qed.

Section BoundedRepetition.

Variables (p : ascii -> bool) (lo h : nat).
Variables (caps : captures) (k : cont).

(** As [rep_elim], with the upper bound on the run. *)
Lemma rep_elim_bounded (P : option captures -> Prop) :
  P None ->
  forall rest n prev,
    n <= h ->
    (forall a b, rest = a ++ b -> forallb p a = true ->
                 lo <= n + length a -> n + length a <= h ->
                 P (k (rev a ++ prev) b caps)) ->
    P (rep p lo (Some h) n prev rest caps k).
Proof.
  intros HN rest.
  induction rest as [|c rest IH]; intros n prev Hn H.
  - simpl. destruct (lo <=? n) eqn:E; [|exact HN].
    apply Nat.leb_le in E. apply (H [] []); simpl; auto; lia.
  - assert (Hstop : P (if lo <=? n then k prev (c :: rest) caps else None)).
    { destruct (lo <=? n) eqn:E; [|exact HN].
      apply Nat.leb_le in E. apply (H [] (c :: rest)); simpl; auto; lia. }
    simpl. destruct (p c && (n <? h)) eqn:E; [|exact Hstop].
    destruct (rep p lo (Some h) (S n) (c :: prev) rest caps k) eqn:R;
      [|exact Hstop].
    rewrite <- R. apply andb_prop in E as [Hc Hlt]. apply Nat.ltb_lt in Hlt.
    apply IH; [lia|]. intros a b -> Ha Hlo Hhi.
    specialize (H (c :: a) b). simpl in H.
    rewrite <- app_assoc in H. apply H; auto; try lia.
    now rewrite Hc.
Qed.

End BoundedRepetition.

(** A proper prefix of a digit run is followed by a digit. *)
Lemma split_inside_run d post :
  forall a b,
    d ++ post = a ++ b -> forallb is_digit d = true -> length a < length d ->
    starts is_digit b = true.
Proof.
  induction d as [|x d IH]; intros a b Heq Hd Hlen; [simpl in Hlen; lia|].
  simpl in Hd. apply andb_prop in Hd as [Hx Hd].
  destruct a as [|y a].
  - simpl in Heq. subst b. exact Hx.
  - simpl in Heq, Hlen. injection Heq as _ Heq.
    apply (IH a b Heq Hd). lia.
Qed.

(** With more than seven digits ahead, no attempt can end at a boundary. *)
Lemma plain_digits_inside d post prev caps :
  forallb is_digit d = true -> 7 < length d ->
  plain_digits prev (d ++ post) caps = None.
Proof.
  intros Hd Hlen. unfold plain_digits. simpl.
  apply rep_elim_bounded with (P := fun res => res = None);
    [reflexivity | lia |].
  intros a b Heq Ha Hlo Hhi. simpl in Hlo, Hhi.
  assert (Hb : starts is_digit b = true).
  { apply (split_inside_run d post a b Heq Hd). lia. }
  destruct b as [|x b]; [discriminate|]. simpl in Hb.
  unfold at_boundary.
  rewrite (word_before_digits a prev (longer_nonempty a 0 ltac:(lia)) Ha).
  simpl. rewrite (digit_is_word x Hb), (digit_not_space x Hb). reflexivity.
Qed.

Lemma match_here_plain_inside d post prev :
  forallb is_digit d = true -> 7 < length d ->
  match_here plain_pattern prev (d ++ post) = None.
Proof.
  intros Hd Hlen. rewrite match_here_plain.
  rewrite (plain_marked_digits prev d post (longer_nonempty d 0 ltac:(lia)) Hd).
  now apply plain_digits_inside.
Qed.

(** Inside a run of more than seven digits the search moves on until
    seven digits are left, and matches those. *)
Lemma search_plain_inside front tail post :
  forallb is_digit tail = true -> length tail = 7 ->
  starts is_word post = false ->
  forall prev,
    forallb is_digit front = true ->
    matched (fun m => group 2 m = Some tail)
            (search_from plain_pattern prev (front ++ tail ++ post)).
Proof.
  intros Ht Hlen Hpost.
  induction front as [|c front IH]; intros prev Hf; rewrite search_from_eq.
  - simpl app.
    destruct (match_here_plain_run tail post Ht ltac:(lia) ltac:(lia) Hpost prev)
      as [m [Hm HQ]].
    rewrite Hm. now exists m.
  - assert (Hnone : match_here plain_pattern prev
                      ((c :: front) ++ tail ++ post) = None).
    { rewrite app_assoc. apply match_here_plain_inside.
      - rewrite forallb_app. now rewrite Hf, Ht.
      - rewrite length_app. simpl. lia. }
    rewrite Hnone. simpl app. apply IH.
    simpl in Hf. now apply andb_prop in Hf as [_ Hf].
Qed.

Lemma match_here_plain_before_long c pre d post prev :
  no_digit (c :: pre) = true ->
  forallb is_digit d = true -> 7 < length d ->
  match_here plain_pattern prev (c :: pre ++ d ++ post) = None.
Proof.
  intros Hpre Hd Hlen. rewrite match_here_plain.
  simpl in Hpre. apply andb_prop in Hpre as [Hc Hpre].
  apply negb_true_iff in Hc.
  assert (Hlast : plain_digits prev (c :: pre ++ d ++ post) [] = None).
  { apply plain_digits_short. simpl. rewrite Hc. lia. }
  rewrite Hlast.
  assert (Hstart : starts is_digit (d ++ post) = true).
  { destruct d as [|x d]; [simpl in Hlen; lia|].
    simpl in Hd |- *. now apply andb_prop in Hd as [Hx _]. }
  simpl. destruct (Ascii.eqb c "r"); [|reflexivity].
  replace (rep _ _ _ _ _ _ _ _) with (@None captures); [reflexivity|].
  symmetry. apply rep_elim with (P := fun res => res = None); [reflexivity|].
  intros a b Heq Ha _.
  destruct (starts is_digit b) eqn:Hb.
  - rewrite (aligned_k pre _ a b Heq Ha Hb Hpre Hstart).
    now apply plain_digits_inside.
  - apply plain_digits_short.
    destruct b as [|x b]; simpl in *; [lia|]. rewrite Hb. lia.
Qed.

Lemma search_plain_long pre front tail post :
  front <> [] -> forallb is_digit front = true ->
  forallb is_digit tail = true -> length tail = 7 ->
  starts is_word post = false ->
  forall prev,
    no_digit pre = true ->
    matched (fun m => group 2 m = Some tail)
            (search_from plain_pattern prev (pre ++ (front ++ tail) ++ post)).
Proof.
  intros Hne Hf Ht Hlen Hpost.
  induction pre as [|c pre IH]; intros prev Hpre.
  - simpl app. rewrite <- app_assoc. now apply search_plain_inside.
  - rewrite search_from_eq.
    change ((c :: pre) ++ (front ++ tail) ++ post)
      with (c :: pre ++ (front ++ tail) ++ post).
    rewrite (match_here_plain_before_long c pre (front ++ tail) post prev Hpre).
    + apply IH. simpl in Hpre. now apply andb_prop in Hpre as [_ Hpre].
    + rewrite forallb_app. now rewrite Hf, Ht.
    + rewrite length_app. destruct front; [contradiction | simpl; lia].
Qed.

(** * [parse_income_from_text] *)

Lemma dec_value_int ip : dec_value ip [] = inject_Z (digits_value 0 ip).
Proof. unfold dec_value. now rewrite app_nil_r. Qed.

Lemma parse_some s :
  normalize s <> [] ->
  parse_income_from_text (Some s) =
  match re_search k_pattern (normalize s) with
  | Some k_match =>
      try_except
        (obind (py_float (group 2 k_match))
               (fun x => Returned (Some (x * 1000)%Q)))
        (fun _ => parse_plain (normalize s))
  | None => parse_plain (normalize s)
  end.
Proof. destruct s; [now intros [] | reflexivity]. Qed.

Lemma app_nonempty (a b c : list ascii) : b <> [] -> a ++ b ++ c <> [].
Proof. destruct a; [destruct b; [contradiction | discriminate] | discriminate]. Qed.

Lemma parse_plain_returns t : exists r, parse_plain t = Returned r.
Proof.
  unfold parse_plain. destruct (re_search plain_pattern t); [|eauto].
  destruct (py_float (group 2 c)); simpl; eauto.
Qed.

Lemma parse_returns text : exists r, parse_income_from_text text = Returned r.
Proof.
  destruct text as [s|]; [|simpl; eauto].
  destruct s as [|a s]; [simpl; eauto|].
  unfold parse_income_from_text.
  destruct (re_search k_pattern (normalize (String a s)));
    [|apply parse_plain_returns].
  destruct (py_float (group 2 c)); simpl; [eauto | apply parse_plain_returns].
Qed.

(** C4, as amended.  When the shorthand pattern matches nowhere, the
    income is the first run of four or more digits of the text, provided
    that run has at most seven digits and ends at the end of the text or
    before a non-word character (a blank is one): the digit runs before it
    are shorter than four and are passed over.  A text without any run of
    four digits gives no income. *)
Theorem parse_first_plain_run :
  (forall (s : string) (pre run post : list ascii),
      normalize s = pre ++ run ++ post ->
      re_search k_pattern (normalize s) = None ->
      forallb is_digit run = true ->
      4 <= length run -> length run <= 7 ->
      runs_below 4 0 pre = true -> ends_in is_digit pre = false ->
      starts is_word post = false ->
      parse_income_from_text (Some s)
      = Returned (Some (inject_Z (digits_value 0 run))))
  /\
  (forall s : string,
      re_search k_pattern (normalize s) = None ->
      runs_below 4 0 (normalize s) = true ->
      parse_income_from_text (Some s) = Returned None).
Proof.
  split.
  - intros s pre run post Hs Hk Hd Hmin Hmax Hpre Hend Hpost.
    assert (Hne : run <> []) by (apply (longer_nonempty run 0); lia).
    rewrite parse_some by (rewrite Hs; now apply app_nonempty).
    rewrite Hk. unfold parse_plain, re_search. rewrite Hs.
    destruct (search_plain_run run post Hd Hmin Hmax Hpost pre 0 []
                ltac:(lia) Hpre Hend) as [m [Hm Hg]].
    rewrite Hm, Hg, (py_float_int run Hne Hd). simpl.
    now rewrite dec_value_int.
  - intros s Hk Hshort.
    destruct s as [|a s]; [reflexivity|].
    unfold parse_income_from_text. rewrite Hk.
    unfold parse_plain, re_search.
    now rewrite (search_plain_short _ 0 [] ltac:(lia) Hshort).
Qed.

Local Open Scope string_scope.

(** The example of C4, and a text whose digit runs are all too short. *)
Lemma parse_first_plain_run_witness :
  parse_income_from_text (Some "I earn 25000 monthly")
  = Returned (Some (inject_Z 25000))
  /\ parse_income_from_text (Some "flat 123, floor 4") = Returned None.
Proof.
  split.
  - apply (proj1 parse_first_plain_run "I earn 25000 monthly"
             (list_ascii_of_string "i earn ")
             (list_ascii_of_string "25000")
             (list_ascii_of_string " monthly"));
      try reflexivity; simpl; lia.
  - apply (proj2 parse_first_plain_run "flat 123, floor 4"); reflexivity.
Defined.

(** C4 as stated fails.  The text [in 2020 i earned 25000] has no [k] and
    holds the run [25000], five digits between a blank and the end of the
    text, yet the income is the earlier run [2020].  In
    [i earn 25000 plus a 3k bonus] the same run stands between two blanks
    and is no part of the shorthand [3k], yet the income is 3000. *)
Lemma plain_run_not_returned :
  (normalize "in 2020 i earned 25000"
   = (list_ascii_of_string "in 2020 i earned "
      ++ list_ascii_of_string "25000" ++ [])%list
   /\ forallb is_digit (list_ascii_of_string "25000") = true
   /\ ends_in is_digit (list_ascii_of_string "in 2020 i earned ") = false
   /\ starts is_word [] = false
   /\ has_char "k" (normalize "in 2020 i earned 25000") = false
   /\ parse_income_from_text (Some "in 2020 i earned 25000")
      = Returned (Some (inject_Z 2020))
   /\ parse_income_from_text (Some "in 2020 i earned 25000")
      <> Returned (Some (inject_Z 25000)))
  /\
  (normalize "i earn 25000 plus a 3k bonus"
   = (list_ascii_of_string "i earn "
      ++ list_ascii_of_string "25000"
      ++ list_ascii_of_string " plus a 3k bonus")%list
   /\ ends_in is_digit (list_ascii_of_string "i earn ") = false
   /\ starts is_word (list_ascii_of_string " plus a 3k bonus") = false
   /\ exists v,
        parse_income_from_text (Some "i earn 25000 plus a 3k bonus")
        = Returned (Some v)
        /\ (v == 3000)%Q /\ ~ (v == 25000)%Q).
Proof.
  split.
  - repeat split; try reflexivity. vm_compute. discriminate.
  - repeat split; try reflexivity.
    eexists. split; [vm_compute; reflexivity|].
    split; [reflexivity | discriminate].
Qed.


Local Close Scope string_scope.

(** C5: the code does not reject a run of more than seven digits.  When
    the text has no [k] and its first digit run has eight digits or more
    and ends at the end of the text or before a non-word character, the
    function returns the number spelled by the last seven digits of the
    run.  The plain pattern has no boundary in front of its digits: the
    search moves on inside the run until seven digits are left. *)
Theorem long_run_tail_returned (s : string) (pre front tail post : list ascii) :
  normalize s = pre ++ (front ++ tail) ++ post ->
  has_char "k" (normalize s) = false ->
  no_digit pre = true ->
  front <> [] -> forallb is_digit front = true ->
  forallb is_digit tail = true -> length tail = 7 ->
  starts is_word post = false ->
  parse_income_from_text (Some s)
  = Returned (Some (inject_Z (digits_value 0 tail))).
Proof.
  intros Hs Hk Hpre Hne Hf Ht Hlen Hpost.
  assert (Htne : tail <> []) by (apply (longer_nonempty tail 0); lia).
  rewrite parse_some.
  - unfold re_search. rewrite (search_k_no_k _ [] Hk).
    unfold parse_plain, re_search. rewrite Hs.
    destruct (search_plain_long pre front tail post Hne Hf Ht Hlen Hpost []
                Hpre) as [m [Hm Hg]].
    rewrite Hm, Hg, (py_float_int tail Htne Ht). simpl.
    now rewrite dec_value_int.
  - rewrite Hs. apply app_nonempty.
    destruct front; [contradiction | discriminate].
Qed.

Local Open Scope string_scope.

(** The two texts C5 names. *)
Lemma long_run_tail_returned_witness :
  parse_income_from_text (Some "1234567890")
  = Returned (Some (inject_Z 4567890))
  /\ parse_income_from_text (Some "my phone is 1234567890123")
     = Returned (Some (inject_Z 7890123)).
Proof.
  split.
  - apply (long_run_tail_returned "1234567890" []
             (list_ascii_of_string "123") (list_ascii_of_string "4567890") []);
      try reflexivity. discriminate.
  - apply (long_run_tail_returned "my phone is 1234567890123"
             (list_ascii_of_string "my phone is ")
             (list_ascii_of_string "123456")
             (list_ascii_of_string "7890123") []);
      try reflexivity. discriminate.
Defined.

Local Close Scope string_scope.


(** C6.  A text whose first number, [ip] or [ip.fp], is followed by
    optional blanks and a whole-word [k] gives a thousand times that
    number, whatever comes before (the currency marker [r] and its blanks
    included) and after; and whenever the shorthand pattern matches, the
    income is a thousand times its group 2, the plain pattern not being
    consulted. *)
Theorem parse_shorthand :
  (forall (s : string) (pre ip ws post : list ascii),
      normalize s = pre ++ ip ++ ws ++ "k"%char :: post ->
      no_digit pre = true ->
      ip <> [] -> forallb is_digit ip = true ->
      forallb is_space ws = true -> starts is_word post = false ->
      parse_income_from_text (Some s)
      = Returned (Some (inject_Z (digits_value 0 ip) * 1000)%Q))
  /\
  (forall (s : string) (pre ip fp ws post : list ascii),
      normalize s = pre ++ (ip ++ "."%char :: fp) ++ ws ++ "k"%char :: post ->
      no_digit pre = true ->
      ip <> [] -> forallb is_digit ip = true ->
      fp <> [] -> forallb is_digit fp = true ->
      forallb is_space ws = true -> starts is_word post = false ->
      parse_income_from_text (Some s)
      = Returned (Some (dec_value ip fp * 1000)%Q))
  /\
  (forall (s : string) (m : captures),
      re_search k_pattern (normalize s) = Some m ->
      exists v, py_float (group 2 m) = Returned v
                /\ parse_income_from_text (Some s)
                   = Returned (Some (v * 1000)%Q)).
Proof.
  assert (Hgen : forall s pre num ws post,
             normalize s = pre ++ num ++ ws ++ "k"%char :: post ->
             no_digit pre = true -> numeral num ->
             forallb is_space ws = true -> starts is_word post = false ->
             forall v, py_float (Some num) = Returned v ->
             parse_income_from_text (Some s) = Returned (Some (v * 1000)%Q)).
  { intros s pre num ws post Hs Hpre Hnum Hws Hpost v Hv.
    rewrite parse_some.
    - unfold re_search. rewrite Hs.
      destruct (search_k_number pre num ws post Hnum Hws Hpost [] Hpre)
        as [m [Hm Hg]].
      now rewrite Hm, Hg, Hv.
    - rewrite Hs. destruct pre; [|discriminate].
      destruct Hnum as [ip Hne _ | ip fp Hne _ _ _];
        (destruct ip; [contradiction | discriminate]). }
  split; [|split].
  - intros s pre ip ws post Hs Hpre Hne Hd Hws Hpost.
    rewrite <- dec_value_int.
    apply (Hgen s pre ip ws post); auto using py_float_int.
    now constructor.
  - intros s pre ip fp ws post Hs Hpre Hne Hd Hfne Hfd Hws Hpost.
    apply (Hgen s pre (ip ++ "."%char :: fp) ws post);
      auto using py_float_frac.
    now constructor.
  - intros s m Hm.
    destruct (search_from_sound _ _ _ _ Hm) as [prev' [rest' Hh]].
    destruct (match_here_k_sound _ _ _ Hh) as [num [Hnum Hg]].
    destruct (py_float_numeral num Hnum) as [v Hv].
    exists v. rewrite Hg. split; [exact Hv|].
    destruct s as [|a s]; [discriminate|].
    unfold parse_income_from_text. now rewrite Hm, Hg, Hv.
Qed.

Local Open Scope string_scope.

(** The two examples of C6, and a shorthand that wins over an earlier
    plain number. *)
Lemma parse_shorthand_witness :
  parse_income_from_text (Some "r20k")
  = Returned (Some (inject_Z 20 * 1000)%Q)
  /\ parse_income_from_text (Some "R 7.5k")
     = Returned (Some ((75 # 10) * 1000)%Q)
  /\ exists v, (v == 3000)%Q
       /\ parse_income_from_text (Some "I earn 25000 plus a 3k bonus")
          = Returned (Some v).
Proof.
  split; [|split].
  - apply (proj1 parse_shorthand "r20k"
             (list_ascii_of_string "r") (list_ascii_of_string "20") [] []);
      try reflexivity. discriminate.
  - apply (proj1 (proj2 parse_shorthand) "R 7.5k"
             (list_ascii_of_string "r ") (list_ascii_of_string "7")
             (list_ascii_of_string "5") [] []);
      try reflexivity; discriminate.
  - destruct (proj2 (proj2 parse_shorthand) "I earn 25000 plus a 3k bonus"
                [(2, list_ascii_of_string "3")] eq_refl) as [v [Hv Hp]].
    exists (v * 1000)%Q. split; [|exact Hp].
    injection Hv as <-. reflexivity.
Defined.

Local Close Scope string_scope.

(** * [estimate_loan_amount] *)

Local Open Scope Q_scope.

Lemma py_div_nonzero a b : Qeq_bool b 0 = false -> py_div a b = Returned (a / b).
Proof. intros H. unfold py_div. now rewrite H. Qed.

Lemma Qle_bool_false r : Qle_bool r 0 = false -> 0 < r.
Proof.
  intros H. apply Qnot_le_lt. intros Hle.
  apply Qle_bool_iff in Hle. congruence.
Qed.

Lemma Qeq_bool_pos r : 0 < r -> Qeq_bool r 0 = false.
Proof.
  intros H. destruct (Qeq_bool r 0) eqn:E; [|reflexivity].
  apply Qeq_bool_iff in E. rewrite E in H. now apply Qlt_irrefl in H.
Qed.

(** The try block never raises: what the function returns, in one piece. *)
Lemma estimate_eq inc rate years pct :
  estimate_loan_amount inc rate years pct =
  Returned (Some
    (if Qle_bool (periodic_rate rate) 0
     then affordable inc pct * inject_Z (years * 12)
     else py_max (affordable inc pct
                  * (1 - (1 + periodic_rate rate) ^ (- (years * 12)))
                  / periodic_rate rate) 0)).
Proof.
  unfold estimate_loan_amount, estimate_with, periodic_rate, affordable.
  rewrite (py_div_nonzero _ 100) by reflexivity. cbn [obind].
  rewrite (py_div_nonzero _ 100) by reflexivity. cbn [obind].
  rewrite (py_div_nonzero _ 12) by reflexivity. cbn [obind].
  destruct (Qle_bool (rate / 100 / 12) 0) eqn:E; [reflexivity|].
  apply Qle_bool_false in E.
  unfold py_pow. rewrite (Qeq_bool_pos (1 + rate / 100 / 12)).
  - cbn [andb obind]. rewrite (py_div_nonzero _ _ (Qeq_bool_pos _ E)).
    reflexivity.
  - apply Qlt_trans with (1 + 0); [reflexivity|].
    now apply Qplus_lt_r.
Qed.

Lemma py_max_zero a : py_max a 0 == Qmax a 0.
Proof.
  unfold py_max. destruct (0 ?= a) eqn:E.
  - apply Qeq_alt in E. rewrite Q.max_l; [reflexivity|]. rewrite E. apply Qle_refl.
  - apply Qlt_alt in E. rewrite Q.max_l; [reflexivity|]. now apply Qlt_le_weak.
  - apply Qgt_alt in E. rewrite Q.max_r; [reflexivity|]. now apply Qlt_le_weak.
Qed.

(** What the function returns over any power: the product at a rate
    that is not positive, where the power is not computed; the clamped
    value with what the power returned; [None] when the power raised. *)
Lemma estimate_with_eq pow inc rate years pct :
  estimate_with py_div pow inc rate years pct =
  if Qle_bool (periodic_rate rate) 0
  then Returned (Some (affordable inc pct * inject_Z (years * 12)))
  else match pow (1 + periodic_rate rate) (- (years * 12))%Z with
       | Returned p =>
           Returned (Some (py_max (affordable inc pct * (1 - p)
                                   / periodic_rate rate) 0))
       | Raised _ => Returned None
       end.
Proof.
  unfold estimate_with, periodic_rate, affordable.
  rewrite (py_div_nonzero _ 100) by reflexivity. cbn [obind].
  rewrite (py_div_nonzero _ 100) by reflexivity. cbn [obind].
  rewrite (py_div_nonzero _ 12) by reflexivity. cbn [obind].
  destruct (Qle_bool (rate / 100 / 12) 0) eqn:E; [reflexivity|].
  apply Qle_bool_false in E.
  destruct (pow (1 + rate / 100 / 12) (- (years * 12))%Z) as [p|e];
    [|reflexivity].
  cbn [obind]. rewrite (py_div_nonzero _ _ (Qeq_bool_pos _ E)).
  reflexivity.
Qed.

Lemma py_pow_exact : exact_where_returned py_pow.
Proof.
  intros b e p. unfold py_pow.
  destruct (Qeq_bool b 0 && (e <? 0)%Z); [discriminate|].
  intros H. injection H as <-. reflexivity.
Qed.

Lemma py_max_compat a b : a == b -> py_max a 0 == py_max b 0.
Proof.
  intros H. rewrite !py_max_zero.
  apply Qle_antisym; apply Q.max_le_compat_r; rewrite H; apply Qle_refl.
Qed.

(** A value returned over a power that is exact where it returns is the
    value of exact arithmetic. *)
Lemma estimate_with_exact pow inc rate years pct v :
  exact_where_returned pow ->
  estimate_with py_div pow inc rate years pct = Returned (Some v) ->
  exists v',
    estimate_loan_amount inc rate years pct = Returned (Some v') /\ v == v'.
Proof.
  intros Hpow. rewrite estimate_with_eq, estimate_eq.
  destruct (Qle_bool (periodic_rate rate) 0) eqn:E.
  - intros H. injection H as <-. eexists. split; reflexivity.
  - destruct (pow (1 + periodic_rate rate) (- (years * 12))%Z) as [p|e] eqn:Ep;
      [|discriminate].
    intros H. injection H as <-. eexists. split; [reflexivity|].
    apply py_max_compat. rewrite (Hpow _ _ _ Ep). reflexivity.
Qed.

(** C1, as amended.  In exact arithmetic the function returns a value for
    every income, rate, term and percentage: the affordable payment times
    the number of periods when the periodic rate is zero or negative, and
    otherwise the annuity present value clamped from below at 0, that is
    the present value itself when it is not negative and 0 when it is.
    For (10000, 0, 10, 30) the value is 360000.  Over any power, one that
    raises as that of binary64 included: at a rate that is not positive
    the product is returned and the power not computed; at a positive
    rate the clamped value is built from what the power returned, and
    [None] is returned when the power raised. *)
Theorem estimate_clamped_annuity :
  (forall (monthly_income annual_rate_pct : Q) (years repayment_pct : Z),
      exists v,
        estimate_loan_amount monthly_income annual_rate_pct years repayment_pct
        = Returned (Some v)
        /\ v == (if Qle_bool (periodic_rate annual_rate_pct) 0
                 then annuity_value monthly_income annual_rate_pct
                                    years repayment_pct
                 else Qmax (annuity_value monthly_income annual_rate_pct
                                          years repayment_pct) 0))
  /\
  (exists v,
      estimate_loan_amount 10000 0 10 30 = Returned (Some v) /\ v == 360000)
  /\
  (forall (pow : Q -> Z -> outcome Q) (monthly_income annual_rate_pct : Q)
          (years repayment_pct : Z),
      estimate_with py_div pow monthly_income annual_rate_pct years
                    repayment_pct
      = if Qle_bool (periodic_rate annual_rate_pct) 0
        then Returned (Some (affordable monthly_income repayment_pct
                             * inject_Z (years * 12)))
        else match pow (1 + periodic_rate annual_rate_pct)
                       (- (years * 12))%Z with
             | Returned p =>
                 Returned (Some (py_max (affordable monthly_income
                                                    repayment_pct
                                         * (1 - p)
                                         / periodic_rate annual_rate_pct) 0))
             | Raised _ => Returned None
             end).
Proof.
  split; [|split].
  - intros inc rate years pct. rewrite estimate_eq.
    eexists. split; [reflexivity|].
    unfold annuity_value. cbv zeta.
    destruct (Qle_bool (periodic_rate rate) 0); [reflexivity|].
    apply py_max_zero.
  - eexists. split; [vm_compute; reflexivity | reflexivity].
  - exact estimate_with_eq.
Qed.

(** C1 as stated fails: at a positive rate and a negative income the
    function returns 0, not the (negative) value of the annuity formula. *)
Lemma annuity_not_returned :
  0 < periodic_rate 12
  /\ annuity_value (-10000) 12 10 30 < 0
  /\ estimate_loan_amount (-10000) 12 10 30 = Returned (Some 0)
  /\ ~ (0 == annuity_value (-10000) 12 10 30).
Proof.
  assert (H : annuity_value (-10000) 12 10 30 < 0) by (vm_compute; reflexivity).
  split; [reflexivity|].
  split; [exact H|].
  split; [vm_compute; reflexivity|].
  intros E. rewrite <- E in H. now apply Qlt_irrefl in H.
Qed.

(** C7: the branch for a zero or negative rate returns the product
    unclamped; a negative income comes back as a negative principal. *)
Theorem negative_principal_returned :
  exists v,
    estimate_loan_amount (-10000) 0 10 30 = Returned (Some v)
    /\ v == -360000 /\ v < 0.
Proof.
  eexists. split; [vm_compute; reflexivity|].
  split; reflexivity.
Qed.

Lemma py_max_nonneg a : 0 <= py_max a 0.
Proof.
  unfold py_max. destruct (0 ?= a) eqn:E.
  - apply Qeq_alt in E. rewrite <- E. apply Qle_refl.
  - apply Qlt_alt in E. now apply Qlt_le_weak.
  - apply Qle_refl.
Qed.

(** At a positive rate the result is clamped and never negative. *)
Lemma estimate_positive_rate_nonneg inc rate years pct :
  0 < periodic_rate rate ->
  exists v, estimate_loan_amount inc rate years pct = Returned (Some v)
            /\ 0 <= v.
Proof.
  intros Hr. rewrite estimate_eq. eexists. split; [reflexivity|].
  destruct (Qle_bool (periodic_rate rate) 0) eqn:E.
  - apply Qle_bool_iff in E. exfalso. apply (Qlt_irrefl 0).
    now apply Qlt_le_trans with (periodic_rate rate).
  - apply py_max_nonneg.
Qed.

Lemma py_max_mono a b : a <= b -> py_max a 0 <= py_max b 0.
Proof.
  intros H. rewrite !py_max_zero. now apply Q.max_le_compat_r.
Qed.

Lemma inject_Z_nonneg z : (0 <= z)%Z -> 0 <= inject_Z z.
Proof. intros H. rewrite Zle_Qle in H. exact H. Qed.

Lemma share_nonneg pct : (0 <= pct)%Z -> 0 <= inject_Z pct / 100.
Proof.
  intros H. unfold Qdiv. apply Qmult_le_0_compat.
  - now apply inject_Z_nonneg.
  - discriminate.
Qed.

Lemma base_ge_one r : 0 < r -> 1 <= 1 + r.
Proof.
  intros H. apply Qle_trans with (1 + 0); [discriminate|].
  apply Qplus_le_r. now apply Qlt_le_weak.
Qed.

(** What is still owed after [n >= 0] periods of discounting is not negative. *)
Lemma discount_nonneg r n :
  0 < r -> (0 <= n)%Z -> 0 <= 1 - (1 + r) ^ (- n).
Proof.
  intros Hr Hn. unfold Qminus. rewrite <- Qle_minus_iff.
  change 1 with ((1 + r) ^ 0) at 2.
  apply Qpower_le_compat_l; [lia | now apply base_ge_one].
Qed.

Lemma discount_mono r n1 n2 :
  0 < r -> (n1 <= n2)%Z ->
  1 - (1 + r) ^ (- n1) <= 1 - (1 + r) ^ (- n2).
Proof.
  intros Hr Hn. unfold Qminus. apply Qplus_le_r. apply Qopp_le_compat.
  apply Qpower_le_compat_l; [lia | now apply base_ge_one].
Qed.

Lemma div_le_compat a b r : 0 < r -> a <= b -> a / r <= b / r.
Proof.
  intros Hr H. unfold Qdiv. apply Qmult_le_compat_r; [exact H|].
  apply Qinv_le_0_compat. now apply Qlt_le_weak.
Qed.

Lemma mult_le_compat_l a b c : 0 <= c -> a <= b -> c * a <= c * b.
Proof.
  intros Hc H. rewrite (Qmult_comm c a), (Qmult_comm c b).
  now apply Qmult_le_compat_r.
Qed.

(** C9, as amended.  In exact arithmetic, with a percentage and a term
    that are not negative, a larger income never gives a smaller
    principal; with an income and a percentage that are not negative, a
    longer term never gives a smaller principal.  Both hold at every
    rate, and the function returns a value on both sides.  Over a power
    that may raise, as that of binary64 does, and is exact where it
    returns, both hold whenever the two calls return a value. *)
Theorem estimate_monotone :
  (forall (rate : Q) (years pct : Z) (inc1 inc2 : Q),
      (0 <= pct)%Z -> (0 <= years)%Z -> inc1 <= inc2 ->
      exists v1 v2,
        estimate_loan_amount inc1 rate years pct = Returned (Some v1)
        /\ estimate_loan_amount inc2 rate years pct = Returned (Some v2)
        /\ v1 <= v2)
  /\
  (forall (rate : Q) (pct : Z) (inc : Q) (years1 years2 : Z),
      0 <= inc -> (0 <= pct)%Z -> (years1 <= years2)%Z ->
      exists v1 v2,
        estimate_loan_amount inc rate years1 pct = Returned (Some v1)
        /\ estimate_loan_amount inc rate years2 pct = Returned (Some v2)
        /\ v1 <= v2)
  /\
  (forall (pow : Q -> Z -> outcome Q) (rate : Q) (years pct : Z)
          (inc1 inc2 v1 v2 : Q),
      exact_where_returned pow ->
      (0 <= pct)%Z -> (0 <= years)%Z -> inc1 <= inc2 ->
      estimate_with py_div pow inc1 rate years pct = Returned (Some v1) ->
      estimate_with py_div pow inc2 rate years pct = Returned (Some v2) ->
      v1 <= v2)
  /\
  (forall (pow : Q -> Z -> outcome Q) (rate : Q) (pct : Z) (inc : Q)
          (years1 years2 : Z) (v1 v2 : Q),
      exact_where_returned pow ->
      0 <= inc -> (0 <= pct)%Z -> (years1 <= years2)%Z ->
      estimate_with py_div pow inc rate years1 pct = Returned (Some v1) ->
      estimate_with py_div pow inc rate years2 pct = Returned (Some v2) ->
      v1 <= v2).
Proof.
  assert (Hincome :
            forall (rate : Q) (years pct : Z) (inc1 inc2 : Q),
              (0 <= pct)%Z -> (0 <= years)%Z -> inc1 <= inc2 ->
              exists v1 v2,
                estimate_loan_amount inc1 rate years pct = Returned (Some v1)
                /\ estimate_loan_amount inc2 rate years pct
                   = Returned (Some v2)
                /\ v1 <= v2).
  { intros rate years pct inc1 inc2 Hpct Hyears Hinc.
    rewrite !estimate_eq. do 2 eexists.
    split; [reflexivity|]. split; [reflexivity|].
    assert (Hpay : affordable inc1 pct <= affordable inc2 pct).
    { unfold affordable. apply Qmult_le_compat_r; [exact Hinc|].
      now apply share_nonneg. }
    destruct (Qle_bool (periodic_rate rate) 0) eqn:E.
    + apply Qmult_le_compat_r; [exact Hpay|].
      apply inject_Z_nonneg. lia.
    + apply Qle_bool_false in E. apply py_max_mono.
      apply div_le_compat; [exact E|].
      apply Qmult_le_compat_r; [exact Hpay|].
      apply discount_nonneg; [exact E | lia]. }
  assert (Hterm :
            forall (rate : Q) (pct : Z) (inc : Q) (years1 years2 : Z),
              0 <= inc -> (0 <= pct)%Z -> (years1 <= years2)%Z ->
              exists v1 v2,
                estimate_loan_amount inc rate years1 pct = Returned (Some v1)
                /\ estimate_loan_amount inc rate years2 pct
                   = Returned (Some v2)
                /\ v1 <= v2).
  { intros rate pct inc years1 years2 Hinc Hpct Hyears.
    rewrite !estimate_eq. do 2 eexists.
    split; [reflexivity|]. split; [reflexivity|].
    assert (Hpay : 0 <= affordable inc pct).
    { unfold affordable. apply Qmult_le_0_compat; [exact Hinc|].
      now apply share_nonneg. }
    destruct (Qle_bool (periodic_rate rate) 0) eqn:E.
    + apply mult_le_compat_l; [exact Hpay|].
      rewrite <- Zle_Qle. lia.
    + apply Qle_bool_false in E. apply py_max_mono.
      apply div_le_compat; [exact E|].
      apply mult_le_compat_l; [exact Hpay|].
      apply discount_mono; [exact E | lia]. }
  split; [exact Hincome|]. split; [exact Hterm|]. split.
  - intros pow rate years pct inc1 inc2 v1 v2 Hpow Hpct Hyears Hinc H1 H2.
    destruct (estimate_with_exact _ _ _ _ _ _ Hpow H1) as [w1 [E1 Q1]].
    destruct (estimate_with_exact _ _ _ _ _ _ Hpow H2) as [w2 [E2 Q2]].
    destruct (Hincome rate years pct inc1 inc2 Hpct Hyears Hinc)
      as [u1 [u2 [F1 [F2 Hle]]]].
    rewrite E1 in F1. injection F1 as <-.
    rewrite E2 in F2. injection F2 as <-.
    now rewrite Q1, Q2.
  - intros pow rate pct inc years1 years2 v1 v2 Hpow Hinc Hpct Hyears H1 H2.
    destruct (estimate_with_exact _ _ _ _ _ _ Hpow H1) as [w1 [E1 Q1]].
    destruct (estimate_with_exact _ _ _ _ _ _ Hpow H2) as [w2 [E2 Q2]].
    destruct (Hterm rate pct inc years1 years2 Hinc Hpct Hyears)
      as [u1 [u2 [F1 [F2 Hle]]]].
    rewrite E1 in F1. injection F1 as <-.
    rewrite E2 in F2. injection F2 as <-.
    now rewrite Q1, Q2.
Qed.

(** On incomes, percentages and terms that are not negative the clamp
    changes nothing: the result is the value of the formula. *)
Lemma estimate_annuity_nonneg inc rate years pct :
  0 <= inc -> (0 <= pct)%Z -> (0 <= years)%Z ->
  exists v, estimate_loan_amount inc rate years pct = Returned (Some v)
            /\ v == annuity_value inc rate years pct.
Proof.
  intros Hinc Hpct Hyears. rewrite estimate_eq.
  eexists. split; [reflexivity|].
  unfold annuity_value. cbv zeta.
  destruct (Qle_bool (periodic_rate rate) 0) eqn:E; [reflexivity|].
  apply Qle_bool_false in E.
  rewrite py_max_zero. apply Q.max_l.
  unfold Qdiv. apply Qmult_le_0_compat.
  - apply Qmult_le_0_compat.
    + unfold affordable. apply Qmult_le_0_compat; [exact Hinc|].
      now apply share_nonneg.
    + apply discount_nonneg; [exact E | lia].
  - apply Qinv_le_0_compat. now apply Qlt_le_weak.
Qed.

(** Inside the ranges of the sidebar, and more generally on positive
    arguments, the estimate of a positive income is positive: there only
    an income of zero reaches the guidance. *)
Lemma estimate_positive inc rate years pct :
  0 < inc -> (0 < pct)%Z -> (0 < years)%Z -> 0 < rate ->
  exists v, estimate_loan_amount inc rate years pct = Returned (Some v)
            /\ 0 < v.
Proof.
  intros Hinc Hpct Hyears Hrate. rewrite estimate_eq.
  eexists. split; [reflexivity|].
  assert (Hr : 0 < periodic_rate rate).
  { unfold periodic_rate, Qdiv.
    apply Qmult_lt_0_compat; [apply Qmult_lt_0_compat|]; try reflexivity.
    exact Hrate. }
  destruct (Qle_bool (periodic_rate rate) 0) eqn:E.
  { apply Qle_bool_iff in E. exfalso. apply (Qlt_irrefl 0).
    now apply Qlt_le_trans with (periodic_rate rate). }
  rewrite py_max_zero.
  eapply Qlt_le_trans; [|apply Q.le_max_l].
  unfold Qdiv. apply Qmult_lt_0_compat; [|now apply Qinv_lt_0_compat].
  apply Qmult_lt_0_compat.
  - unfold affordable, Qdiv.
    apply Qmult_lt_0_compat; [exact Hinc|].
    apply Qmult_lt_0_compat; [|reflexivity].
    change 0 with (inject_Z 0). rewrite <- Zlt_Qlt. exact Hpct.
  - unfold Qminus. rewrite <- Qlt_minus_iff.
    change 1 with ((1 + periodic_rate rate) ^ 0) at 2.
    apply Qpower_lt_compat_l; [lia|].
    apply Qle_lt_trans with (1 + 0); [discriminate|].
    apply Qplus_lt_r. exact Hr.
Qed.

(** At the default settings: a larger income, then a longer term; and
    the same over a year at 12 percent, with the values of the two calls
    given. *)
Lemma estimate_monotone_witness :
  (exists v1 v2,
      estimate_loan_amount 20000 11.75 20 30 = Returned (Some v1)
      /\ estimate_loan_amount 25000 11.75 20 30 = Returned (Some v2)
      /\ v1 <= v2)
  /\
  (exists v1 v2,
      estimate_loan_amount 20000 11.75 20 30 = Returned (Some v1)
      /\ estimate_loan_amount 20000 11.75 25 30 = Returned (Some v2)
      /\ v1 <= v2)
  /\
  (exists v1 v2,
      estimate_with py_div py_pow 20000 12 1 30 = Returned (Some v1)
      /\ estimate_with py_div py_pow 25000 12 1 30 = Returned (Some v2)
      /\ v1 <= v2)
  /\
  (exists v1 v2,
      estimate_with py_div py_pow 20000 12 1 30 = Returned (Some v1)
      /\ estimate_with py_div py_pow 20000 12 2 30 = Returned (Some v2)
      /\ v1 <= v2).
Proof.
  split; [|split; [|split]].
  - apply (proj1 estimate_monotone 11.75 20%Z 30%Z 20000 25000);
      [lia | lia | vm_compute; discriminate].
  - apply (proj1 (proj2 estimate_monotone) 11.75 30%Z 20000 20%Z 25%Z);
      [vm_compute; discriminate | lia | lia].
  - do 2 eexists.
    split; [vm_compute; reflexivity|]. split; [vm_compute; reflexivity|].
    apply (proj1 (proj2 (proj2 estimate_monotone)) py_pow 12 1%Z 30%Z
                 20000 25000);
      [exact py_pow_exact | lia | lia | vm_compute; discriminate
       | vm_compute; reflexivity | vm_compute; reflexivity].
  - do 2 eexists.
    split; [vm_compute; reflexivity|]. split; [vm_compute; reflexivity|].
    apply (proj2 (proj2 (proj2 estimate_monotone)) py_pow 12 30%Z 20000
                 1%Z 2%Z);
      [exact py_pow_exact | vm_compute; discriminate | lia | lia
       | vm_compute; reflexivity | vm_compute; reflexivity].
Defined.

(** C9 as stated fails.  At a positive rate, where the result is clamped,
    a negative percentage makes the larger of two negative incomes give
    the smaller principal, and a negative income makes the longer of two
    terms, one of them negative, give the smaller principal.  At a zero
    rate a negative percentage is enough: 1 gives -36 and 2 gives -72. *)
Lemma monotonicity_needs_signs :
  (exists v1 v2,
      estimate_loan_amount (-2) 12 10 (-30) = Returned (Some v1)
      /\ estimate_loan_amount (-1) 12 10 (-30) = Returned (Some v2)
      /\ -2 < -1 /\ v2 < v1)
  /\
  (exists v1 v2,
      estimate_loan_amount (-10000) 12 (-10) 30 = Returned (Some v1)
      /\ estimate_loan_amount (-10000) 12 0 30 = Returned (Some v2)
      /\ (-10 < 0)%Z /\ v2 < v1)
  /\
  (exists v1 v2,
      estimate_loan_amount 1 0 10 (-30) = Returned (Some v1)
      /\ estimate_loan_amount 2 0 10 (-30) = Returned (Some v2)
      /\ v1 == -36 /\ v2 == -72 /\ v2 < v1).
Proof.
  split; [|split]; do 2 eexists;
    (split; [vm_compute; reflexivity|]);
    (split; [vm_compute; reflexivity|]);
    repeat split.
Qed.

Local Close Scope Q_scope.

(** C8.  Neither function lets an exception out: each returns, for every
    input, a number or [None]; [None] and the empty text give [None].  For
    the estimator this holds whatever its division and power do, and when
    one of them raises the function returns [None]. *)
Theorem no_exception_escapes :
  (forall text : option string,
      exists r, parse_income_from_text text = Returned r)
  /\ parse_income_from_text None = Returned None
  /\ parse_income_from_text (Some EmptyString) = Returned None
  /\ (forall (monthly_income annual_rate_pct : Q) (years repayment_pct : Z),
        exists r,
          estimate_loan_amount monthly_income annual_rate_pct years
                               repayment_pct = Returned r)
  /\ (forall div pow (monthly_income annual_rate_pct : Q)
             (years repayment_pct : Z),
        exists r,
          estimate_with div pow monthly_income annual_rate_pct years
                        repayment_pct = Returned r)
  /\ (forall pow e (monthly_income annual_rate_pct : Q)
             (years repayment_pct : Z),
        (0 < periodic_rate annual_rate_pct)%Q ->
        pow (1 + periodic_rate annual_rate_pct)%Q (- (years * 12))%Z
        = Raised e ->
        estimate_with py_div pow monthly_income annual_rate_pct years
                      repayment_pct = Returned None).
Proof.
  split; [exact parse_returns|].
  split; [reflexivity|]. split; [reflexivity|].
  split; [|split].
  - intros inc rate years pct. rewrite estimate_eq. eauto.
  - intros div pow inc rate years pct. unfold estimate_with.
    match goal with
    | |- exists r, try_except ?b _ = _ => destruct b; simpl; eauto
    end.
  - intros pow e inc rate years pct Hr Hpow.
    unfold estimate_with, periodic_rate in *.
    rewrite (py_div_nonzero _ 100) by reflexivity. cbn [obind].
    rewrite (py_div_nonzero _ 100) by reflexivity. cbn [obind].
    rewrite (py_div_nonzero _ 12) by reflexivity. cbn [obind].
    destruct (Qle_bool (rate / 100 / 12) 0) eqn:E.
    + apply Qle_bool_iff in E. exfalso. apply (Qlt_irrefl 0).
      now apply Qlt_le_trans with (rate / 100 / 12)%Q.
    + now rewrite Hpow.
Qed.

(** A power that overflows, as that of binary64 does on a long negative
    term: the estimator returns [None]. *)
Lemma no_exception_escapes_witness :
  estimate_with py_div (fun _ _ => Raised OverflowError) 20000 11.75 (-1000) 30
  = Returned None.
Proof.
  apply (proj2 (proj2 (proj2 (proj2 (proj2 no_exception_escapes))))
           (fun _ _ => Raised OverflowError) OverflowError 20000%Q 11.75%Q
           (-1000)%Z 30%Z);
    reflexivity.
Defined.

(** * The query handler *)

Lemma truthy_zero v : zero_or_absent v -> truthy v = None.
Proof.
  destruct v as [q|]; simpl; [|reflexivity].
  intros H. apply Qeq_bool_iff in H. now rewrite H.
Qed.

Lemma truthy_nonzero q : ~ (q == 0)%Q -> truthy (Some q) = Some q.
Proof.
  intros H. simpl. destruct (Qeq_bool q 0) eqn:E; [|reflexivity].
  apply Qeq_bool_iff in E. contradiction.
Qed.

Arguments parse_income_from_text : simpl never.
Arguments estimate_loan_amount : simpl never.

Lemma offline_branch_eq rate years pct input :
  offline_branch rate years pct input =
  match parse_income_from_text (Some input) with
  | Raised e => ([Call_parse input], Raised e)
  | Returned income =>
      match truthy income with
      | None => ([Call_parse input; St_info msg_offline_guidance],
                 Returned false)
      | Some inc =>
          match estimate_loan_amount inc rate years pct with
          | Raised e =>
              ([Call_parse input; Call_estimate inc rate years pct], Raised e)
          | Returned est =>
              match truthy est with
              | Some e =>
                  ([Call_parse input; Call_estimate inc rate years pct;
                    St_success msg_offline_title;
                    St_write (Estimate_report e inc rate years pct)],
                   Returned true)
              | None =>
                  ([Call_parse input; Call_estimate inc rate years pct;
                    St_info msg_offline_guidance],
                   Returned false)
              end
          end
      end
  end.
Proof.
  unfold offline_branch, call.
  destruct (parse_income_from_text (Some input)) as [income|e]; [|reflexivity].
  simpl. destruct (truthy income) as [inc|]; [|reflexivity].
  simpl. destruct (estimate_loan_amount inc rate years pct) as [est|e];
    [|reflexivity].
  simpl. destruct (truthy est); reflexivity.
Qed.

Lemma on_remote_failure_eq rate years pct input err :
  on_remote_failure rate years pct input err =
  if is_quota_error err then
    match parse_income_from_text (Some input) with
    | Raised e => ([Call_parse input], Raised e)
    | Returned income =>
        match truthy income with
        | None => ([Call_parse input; St_error (Text msg_quota_no_income)],
                   Returned tt)
        | Some inc =>
            match estimate_loan_amount inc rate years pct with
            | Raised e =>
                ([Call_parse input; Call_estimate inc rate years pct],
                 Raised e)
            | Returned est =>
                match truthy est with
                | Some e =>
                    ([Call_parse input; Call_estimate inc rate years pct;
                      St_warning msg_unavailable;
                      St_success msg_offline_title;
                      St_write (Estimate_report e inc rate years pct)],
                     Returned tt)
                | None =>
                    ([Call_parse input; Call_estimate inc rate years pct;
                      St_error (Text msg_quota_no_estimate)],
                     Returned tt)
                end
            end
        end
    end
  else ([St_error (Error_calling err)], Returned tt).
Proof.
  unfold on_remote_failure, call.
  destruct (is_quota_error err); [|reflexivity].
  destruct (parse_income_from_text (Some input)) as [income|e]; [|reflexivity].
  simpl. destruct (truthy income) as [inc|]; [|reflexivity].
  simpl. destruct (estimate_loan_amount inc rate years pct) as [est|e];
    [|reflexivity].
  simpl. destruct (truthy est); reflexivity.
Qed.

(** With offline mode on, or without a client, the handler is the offline
    block and nothing else. *)
Lemma handle_query_offline offline_mode client rate years pct input :
  input <> EmptyString ->
  offline_mode = true \/ client = None ->
  trace (handle_query offline_mode client rate years pct input)
  = trace (offline_branch rate years pct input).
Proof.
  intros Hne Hoff.
  destruct input as [|a s]; [contradiction|].
  unfold handle_query.
  assert (Hc : offline_mode || is_none client = true).
  { destruct Hoff as [-> | ->]; [reflexivity | apply orb_true_r]. }
  rewrite Hc.
  destruct (offline_branch rate years pct (String a s)) as [tr [used|e]];
    [|reflexivity].
  unfold io_bind, trace.
  destruct Hoff as [-> | ->]; [destruct client|]; simpl; apply app_nil_r.
Qed.

(** With offline mode off and a client that fails, the handler is the call
    followed by the [except] block. *)
Lemma handle_query_failure ask rate years pct input err :
  input <> EmptyString ->
  ask input = Failure err ->
  trace (handle_query false (Some ask) rate years pct input)
  = Call_remote input :: trace (on_remote_failure rate years pct input err).
Proof.
  intros Hne Hask.
  destruct input as [|a s]; [contradiction|].
  unfold handle_query, call. simpl. rewrite Hask.
  destruct (on_remote_failure rate years pct (String a s) err) as [tr o].
  reflexivity.
Qed.

Lemma estimate_returns inc rate years pct :
  exists est, estimate_loan_amount inc rate years pct = Returned est.
Proof. rewrite estimate_eq. eauto. Qed.

(** C2, as amended.  With offline mode on, or with no client, the handler
    calls [parse_income_from_text] and, on an income that is not zero,
    [estimate_loan_amount]; it shows the offline estimate when both gave a
    value that is not zero, and the offline guidance otherwise, also when a
    value of zero was produced.  The client is never called, even when one
    is configured. *)
Theorem offline_policy (offline_mode : bool) (client : option remote)
    (rate : Q) (years pct : Z) (user_input : string) :
  user_input <> EmptyString ->
  offline_mode = true \/ client = None ->
  (exists income,
      parse_income_from_text (Some user_input) = Returned income
      /\ match truthy income with
         | None =>
             trace (handle_query offline_mode client rate years pct user_input)
             = [Call_parse user_input; St_info msg_offline_guidance]
         | Some inc =>
             exists est,
               estimate_loan_amount inc rate years pct = Returned est
               /\ trace (handle_query offline_mode client rate years pct
                                      user_input)
                  = match truthy est with
                    | Some e =>
                        [Call_parse user_input;
                         Call_estimate inc rate years pct;
                         St_success msg_offline_title;
                         St_write (Estimate_report e inc rate years pct)]
                    | None =>
                        [Call_parse user_input;
                         Call_estimate inc rate years pct;
                         St_info msg_offline_guidance]
                    end
         end)
  /\ (forall question,
         ~ In (Call_remote question)
              (trace (handle_query offline_mode client rate years pct
                                   user_input))).
Proof.
  intros Hne Hoff.
  rewrite (handle_query_offline _ _ _ _ _ _ Hne Hoff), offline_branch_eq.
  destruct (parse_returns (Some user_input)) as [income Hp]. rewrite Hp.
  destruct (truthy income) as [inc|] eqn:Hi.
  - destruct (estimate_returns inc rate years pct) as [est He]. rewrite He.
    split.
    + exists income. split; [reflexivity|]. rewrite Hi.
      exists est. split; [exact He|].
      destruct (truthy est); reflexivity.
    + intros question.
      destruct (truthy est); simpl; intuition discriminate.
  - split.
    + exists income. split; [reflexivity|]. now rewrite Hi.
    + intros question. simpl. intuition discriminate.
Qed.

Local Open Scope string_scope.

(** Offline mode on with a client configured: the client is not called. *)
Lemma offline_policy_witness :
  (exists income,
      parse_income_from_text (Some "I earn R15,000 per month")
      = Returned income
      /\ match truthy income with
         | None =>
             trace (handle_query true (Some (answering "hello")) 11.75 20 30
                                 "I earn R15,000 per month")
             = [Call_parse "I earn R15,000 per month";
                St_info msg_offline_guidance]
         | Some inc =>
             exists est,
               estimate_loan_amount inc 11.75 20 30 = Returned est
               /\ trace (handle_query true (Some (answering "hello")) 11.75
                                      20 30 "I earn R15,000 per month")
                  = match truthy est with
                    | Some e =>
                        [Call_parse "I earn R15,000 per month";
                         Call_estimate inc 11.75 20 30;
                         St_success msg_offline_title;
                         St_write (Estimate_report e inc 11.75 20 30)]
                    | None =>
                        [Call_parse "I earn R15,000 per month";
                         Call_estimate inc 11.75 20 30;
                         St_info msg_offline_guidance]
                    end
         end)
  /\ (forall question,
         ~ In (Call_remote question)
              (trace (handle_query true (Some (answering "hello")) 11.75 20 30
                                   "I earn R15,000 per month"))).
Proof.
  apply (offline_policy true (Some (answering "hello")) 11.75 20 30
                        "I earn R15,000 per month");
    [discriminate | left; reflexivity].
Defined.

(** C2 as stated fails.  The text [0000] makes the extractor produce a
    value, the number 0, on which the estimator produces a value too; the
    handler shows the guidance and does not call the estimator.  With a
    term of zero years both functions are called and both produce a value,
    the estimate being 0; the handler shows the guidance again. *)
Lemma zero_income_gets_guidance :
  (parse_income_from_text (Some "0000") = Returned (Some 0%Q)
   /\ (exists v, estimate_loan_amount 0 11.75 20 30 = Returned (Some v))
   /\ trace (handle_query true None 11.75 20 30 "0000")
      = [Call_parse "0000"; St_info msg_offline_guidance])
  /\
  (parse_income_from_text (Some "I earn 25000")
   = Returned (Some (inject_Z 25000))
   /\ (exists v, estimate_loan_amount (inject_Z 25000) 11.75 0 30
                 = Returned (Some v) /\ (v == 0)%Q)
   /\ trace (handle_query true None 11.75 0 30 "I earn 25000")
      = [Call_parse "I earn 25000";
         Call_estimate (inject_Z 25000) 11.75 0 30;
         St_info msg_offline_guidance]).
Proof.
  split.
  - split; [reflexivity|]. split; [|reflexivity].
    eexists. apply estimate_eq.
  - split; [reflexivity|]. split; [|vm_compute; reflexivity].
    eexists. split; [apply estimate_eq | vm_compute; reflexivity].
Qed.

Local Close Scope string_scope.

(** C3.  With offline mode off and a client whose call fails, the offline
    fallback is attempted exactly when the failure text carries a quota
    marker.  Then the handler shows the warning and the offline estimate
    when income and estimate are values that are not zero, and a quota
    error otherwise, in particular when no income is found.  On any other
    failure it shows the error with the failure text and calls neither
    function. *)
Theorem remote_failure_policy (ask : remote) (rate : Q) (years pct : Z)
    (user_input err_text : string) :
  user_input <> EmptyString ->
  ask user_input = Failure err_text ->
  (is_quota_error err_text = true ->
   exists income,
     parse_income_from_text (Some user_input) = Returned income
     /\ match truthy income with
        | None =>
            trace (handle_query false (Some ask) rate years pct user_input)
            = [Call_remote user_input; Call_parse user_input;
               St_error (Text msg_quota_no_income)]
        | Some inc =>
            exists est,
              estimate_loan_amount inc rate years pct = Returned est
              /\ trace (handle_query false (Some ask) rate years pct
                                     user_input)
                 = match truthy est with
                   | Some e =>
                       [Call_remote user_input; Call_parse user_input;
                        Call_estimate inc rate years pct;
                        St_warning msg_unavailable;
                        St_success msg_offline_title;
                        St_write (Estimate_report e inc rate years pct)]
                   | None =>
                       [Call_remote user_input; Call_parse user_input;
                        Call_estimate inc rate years pct;
                        St_error (Text msg_quota_no_estimate)]
                   end
        end)
  /\ (is_quota_error err_text = false ->
      trace (handle_query false (Some ask) rate years pct user_input)
      = [Call_remote user_input; St_error (Error_calling err_text)])
  /\ (In (Call_parse user_input)
         (trace (handle_query false (Some ask) rate years pct user_input))
      <-> is_quota_error err_text = true).
Proof.
  intros Hne Hask.
  rewrite (handle_query_failure _ _ _ _ _ _ Hne Hask), on_remote_failure_eq.
  destruct (is_quota_error err_text).
  - destruct (parse_returns (Some user_input)) as [income Hp]. rewrite Hp.
    split; [|split; [discriminate|]].
    + intros _. exists income. split; [reflexivity|].
      destruct (truthy income) as [inc|]; [|reflexivity].
      destruct (estimate_returns inc rate years pct) as [est He]. rewrite He.
      exists est. split; [reflexivity|].
      destruct (truthy est); reflexivity.
    + split; [intros _; reflexivity|]. intros _.
      destruct (truthy income) as [inc|]; [|simpl; auto].
      destruct (estimate_loan_amount inc rate years pct) as [est|e];
        [destruct (truthy est)|]; simpl; auto.
  - split; [discriminate|]. split; [reflexivity|].
    split; [|discriminate].
    simpl. intuition discriminate.
Qed.

Local Open Scope string_scope.

(** A failure without a quota marker, and one with it. *)
Lemma remote_failure_policy_witness :
  trace (handle_query false (Some (failing "Connection error.")) 11.75 20 30
                      "I make R12k a month")
  = [Call_remote "I make R12k a month";
     St_error (Error_calling "Connection error.")]
  /\ In (Call_parse "I make R12k a month")
        (trace (handle_query false
                  (Some (failing "Error code: 429 - insufficient_quota"))
                  11.75 20 30 "I make R12k a month")).
Proof.
  split.
  - apply (remote_failure_policy (failing "Connection error.") 11.75 20 30
             "I make R12k a month" "Connection error.");
      [discriminate | reflexivity | reflexivity].
  - apply (remote_failure_policy
             (failing "Error code: 429 - insufficient_quota") 11.75 20 30
             "I make R12k a month" "Error code: 429 - insufficient_quota");
      [discriminate | reflexivity | reflexivity].
Defined.

Local Close Scope string_scope.

(** C10.  The handler takes a value of exactly zero for no value.  In the
    offline block an income that is [None] or zero gives the guidance and
    no call of the estimator, and an estimate that is [None] or zero gives
    the guidance too; in the quota fallback the same incomes give the
    quota error that asks for billing or offline mode, and the same
    estimates the quota error that no estimate could be computed.  No
    estimate of zero is ever shown. *)
Theorem zero_counts_as_absent (rate : Q) (years pct : Z) (user_input : string) :
  user_input <> EmptyString ->
  (forall (offline_mode : bool) (client : option remote),
      offline_mode = true \/ client = None ->
      (forall income,
          parse_income_from_text (Some user_input) = Returned income ->
          zero_or_absent income ->
          trace (handle_query offline_mode client rate years pct user_input)
          = [Call_parse user_input; St_info msg_offline_guidance])
      /\
      (forall inc est,
          parse_income_from_text (Some user_input) = Returned (Some inc) ->
          ~ (inc == 0)%Q ->
          estimate_loan_amount inc rate years pct = Returned est ->
          zero_or_absent est ->
          trace (handle_query offline_mode client rate years pct user_input)
          = [Call_parse user_input; Call_estimate inc rate years pct;
             St_info msg_offline_guidance]))
  /\
  (forall (ask : remote) (err_text : string),
      ask user_input = Failure err_text ->
      is_quota_error err_text = true ->
      (forall income,
          parse_income_from_text (Some user_input) = Returned income ->
          zero_or_absent income ->
          trace (handle_query false (Some ask) rate years pct user_input)
          = [Call_remote user_input; Call_parse user_input;
             St_error (Text msg_quota_no_income)])
      /\
      (forall inc est,
          parse_income_from_text (Some user_input) = Returned (Some inc) ->
          ~ (inc == 0)%Q ->
          estimate_loan_amount inc rate years pct = Returned est ->
          zero_or_absent est ->
          trace (handle_query false (Some ask) rate years pct user_input)
          = [Call_remote user_input; Call_parse user_input;
             Call_estimate inc rate years pct;
             St_error (Text msg_quota_no_estimate)])).
Proof.
  intros Hne. split.
  - intros offline_mode client Hoff.
    rewrite (handle_query_offline _ _ _ _ _ _ Hne Hoff), offline_branch_eq.
    split.
    + intros income Hp Hz. now rewrite Hp, (truthy_zero income Hz).
    + intros inc est Hp Hnz He Hz.
      now rewrite Hp, (truthy_nonzero inc Hnz), He, (truthy_zero est Hz).
  - intros ask err_text Hask Hq.
    rewrite (handle_query_failure _ _ _ _ _ _ Hne Hask), on_remote_failure_eq, Hq.
    split.
    + intros income Hp Hz. now rewrite Hp, (truthy_zero income Hz).
    + intros inc est Hp Hnz He Hz.
      now rewrite Hp, (truthy_nonzero inc Hnz), He, (truthy_zero est Hz).
Qed.

Local Open Scope string_scope.

(** The income [0000] in both branches, and a term of zero years, which
    makes the estimate zero. *)
Lemma zero_counts_as_absent_witness :
  trace (handle_query true None 11.75 20 30 "0000")
  = [Call_parse "0000"; St_info msg_offline_guidance]
  /\ trace (handle_query false (Some (failing "Error code: 429")) 11.75 20 30
                         "0000")
     = [Call_remote "0000"; Call_parse "0000";
        St_error (Text msg_quota_no_income)]
  /\ trace (handle_query true None 11.75 0 30 "I earn 25000")
     = [Call_parse "I earn 25000"; Call_estimate (inject_Z 25000) 11.75 0 30;
        St_info msg_offline_guidance].
Proof.
  split; [|split].
  - apply (proj1 (proj1 (zero_counts_as_absent 11.75 20 30 "0000"
                           ltac:(discriminate))
                    true None (or_introl eq_refl)) (Some 0%Q));
      reflexivity.
  - apply (proj1 (proj2 (zero_counts_as_absent 11.75 20 30 "0000"
                           ltac:(discriminate))
                    (failing "Error code: 429") "Error code: 429"
                    eq_refl eq_refl) (Some 0%Q));
      reflexivity.
  - eapply (proj2 (proj1 (zero_counts_as_absent 11.75 0 30 "I earn 25000"
                            ltac:(discriminate))
                     true None (or_introl eq_refl)) (inject_Z 25000));
      [reflexivity | discriminate | apply estimate_eq | vm_compute; reflexivity].
Defined.

Local Close Scope string_scope.


(** * Further properties of [parse_income_from_text] *)

Lemma lower_char_idem c : lower_char (lower_char c) = lower_char c.
Proof. destruct c as [[] [] [] [] [] [] [] []]; reflexivity. Qed.

Lemma lower_char_comma c : Ascii.eqb (lower_char c) "," = Ascii.eqb c ",".
Proof. destruct c as [[] [] [] [] [] [] [] []]; reflexivity. Qed.

Lemma lower_char_digit c : is_digit c = true -> lower_char c = c.
Proof. destruct c as [[] [] [] [] [] [] [] []]; vm_compute; congruence. Qed.

Lemma digit_not_comma c : is_digit c = true -> Ascii.eqb c "," = false.
Proof. destruct c as [[] [] [] [] [] [] [] []]; vm_compute; congruence. Qed.

Lemma digit_not_k c : is_digit c = true -> Ascii.eqb c "k" = false.
Proof. destruct c as [[] [] [] [] [] [] [] []]; vm_compute; congruence. Qed.

Lemma digit_val_range c : is_digit c = true -> (0 <= digit_val c <= 9)%Z.
Proof.
  unfold is_digit, in_range, digit_val. intros H.
  apply andb_prop in H as [H1 H2].
  apply Nat.leb_le in H1. apply Nat.leb_le in H2. lia.
Qed.

Lemma lower_idem l : lower (lower l) = lower l.
Proof.
  unfold lower. rewrite map_map. apply map_ext. apply lower_char_idem.
Qed.

Lemma strip_lower_strip l :
  strip_commas (lower (strip_commas l)) = strip_commas (lower l).
Proof.
  induction l as [|c l IH]; [reflexivity|].
  simpl. destruct (Ascii.eqb c ",") eqn:E; simpl.
  - rewrite lower_char_comma, E. simpl. exact IH.
  - rewrite lower_char_comma, E. simpl. now rewrite IH.
Qed.

(** The function reads its text through [normalize] only. *)
Lemma parse_normal s :
  parse_income_from_text (Some s) =
  match re_search k_pattern (normalize s) with
  | Some k_match =>
      try_except
        (obind (py_float (group 2 k_match))
               (fun x => Returned (Some (x * 1000)%Q)))
        (fun _ => parse_plain (normalize s))
  | None => parse_plain (normalize s)
  end.
Proof. destruct s; reflexivity. Qed.

(** X1.  Letter case and commas do not matter: two texts with the same
    lowercased, comma-free form give the same income; so do a text and its
    lowercase form, and a text and the text without its commas. *)
Theorem parse_ignores_case_and_commas :
  (forall s1 s2 : string,
      normalize s1 = normalize s2 ->
      parse_income_from_text (Some s1) = parse_income_from_text (Some s2))
  /\ (forall s : string,
         parse_income_from_text
           (Some (string_of_list_ascii (lower (list_ascii_of_string s))))
         = parse_income_from_text (Some s))
  /\ (forall s : string,
         parse_income_from_text
           (Some (string_of_list_ascii (strip_commas (list_ascii_of_string s))))
         = parse_income_from_text (Some s)).
Proof.
  assert (H : forall s1 s2 : string,
             normalize s1 = normalize s2 ->
             parse_income_from_text (Some s1)
             = parse_income_from_text (Some s2)).
  { intros s1 s2 E. now rewrite !parse_normal, E. }
  split; [exact H|]. split; intros s; apply H; unfold normalize;
    rewrite list_ascii_of_string_of_list_ascii.
  - now rewrite lower_idem.
  - apply strip_lower_strip.
Qed.

Local Open Scope string_scope.

(** [R20,000], [r20000] and [R2,0,0,0,0] are one income. *)
Lemma parse_ignores_case_and_commas_witness :
  parse_income_from_text (Some "R20,000")
  = parse_income_from_text (Some "r20000")
  /\ parse_income_from_text (Some "R2,0,0,0,0")
     = parse_income_from_text (Some "r20000").
Proof.
  split; apply (proj1 parse_ignores_case_and_commas); reflexivity.
Defined.

Local Close Scope string_scope.

Lemma plain_digits_sound prev rest caps m :
  plain_digits prev rest caps = Some m ->
  exists d, group 2 m = Some d /\ forallb is_digit d = true
            /\ 4 <= length d /\ length d <= 7.
Proof.
  unfold plain_digits. simpl. revert m.
  apply rep_elim_bounded
    with (P := fun res => forall m, res = Some m ->
                 exists d, group 2 m = Some d /\ forallb is_digit d = true
                           /\ 4 <= length d /\ length d <= 7);
    [discriminate | lia |].
  intros a b _ Ha Hlo Hhi m H. simpl in Hlo, Hhi.
  assert (Hm : m = set_group 2 (slice prev (rev a ++ prev)) caps).
  { unfold accept in H.
    destruct (at_boundary (rev a ++ prev) b); [congruence|].
    destruct b as [|x b]; [discriminate|].
    destruct (is_space x); [congruence | discriminate]. }
  subst m. exists a. simpl. rewrite slice_app. auto.
Qed.

Lemma match_here_plain_sound prev rest m :
  match_here plain_pattern prev rest = Some m ->
  exists d, group 2 m = Some d /\ forallb is_digit d = true
            /\ 4 <= length d /\ length d <= 7.
Proof.
  rewrite match_here_plain.
  destruct (plain_marked prev rest) as [m'|] eqn:E.
  - intros H. injection H as <-. revert m' E. unfold plain_marked.
    destruct rest as [|x rest]; [discriminate|].
    destruct (Ascii.eqb x "r"); [|discriminate].
    apply rep_elim
      with (P := fun res => forall m, res = Some m ->
                   exists d, group 2 m = Some d /\ forallb is_digit d = true
                             /\ 4 <= length d /\ length d <= 7);
      [discriminate|].
    intros a b _ _ _ m H. now apply plain_digits_sound in H.
  - apply plain_digits_sound.
Qed.

Lemma digits_value_bounds d :
  forall acc,
    forallb is_digit d = true -> (0 <= acc)%Z ->
    (0 <= digits_value acc d < (acc + 1) * 10 ^ Z.of_nat (length d))%Z.
Proof.
  induction d as [|c d IH]; intros acc Hd Hacc.
  - simpl. lia.
  - simpl in Hd. apply andb_prop in Hd as [Hc Hd].
    pose proof (digit_val_range c Hc) as Hv.
    specialize (IH (acc * 10 + digit_val c)%Z Hd ltac:(lia)).
    cbn [digits_value length]. rewrite Nat2Z.inj_succ, Z.pow_succ_r by lia.
    assert (0 < 10 ^ Z.of_nat (length d))%Z by (apply Z.pow_pos_nonneg; lia).
    nia.
Qed.

Lemma dec_value_nonneg ip fp :
  forallb is_digit ip = true -> forallb is_digit fp = true ->
  (0 <= dec_value ip fp)%Q.
Proof.
  intros Hi Hf. unfold dec_value, Qle. simpl.
  assert (H : forallb is_digit (ip ++ fp) = true)
    by (rewrite forallb_app; now rewrite Hi, Hf).
  pose proof (digits_value_bounds (ip ++ fp) 0 H ltac:(lia)). lia.
Qed.

Lemma numeral_value_nonneg s v :
  numeral s -> py_float (Some s) = Returned v -> (0 <= v)%Q.
Proof.
  intros [ip Hne Hd | ip fp Hne Hd Hfne Hfd] H.
  - rewrite (py_float_int ip Hne Hd) in H. injection H as <-.
    now apply dec_value_nonneg.
  - rewrite (py_float_frac ip fp Hne Hd Hfne Hfd) in H. injection H as <-.
    now apply dec_value_nonneg.
Qed.

Lemma parse_plain_range t v :
  parse_plain t = Returned (Some v) ->
  exists n, v = inject_Z n /\ (0 <= n <= 9999999)%Z.
Proof.
  unfold parse_plain, re_search.
  destruct (search_from plain_pattern [] t) as [m|] eqn:E; [|discriminate].
  destruct (search_from_sound _ _ _ _ E) as [prev' [rest' Hh]].
  destruct (match_here_plain_sound _ _ _ Hh) as [d [Hg [Hd [Hmin Hmax]]]].
  rewrite Hg, (py_float_int d (longer_nonempty d 0 ltac:(lia)) Hd).
  simpl. intros H. injection H as <-.
  exists (digits_value 0 d). split; [apply dec_value_int|].
  pose proof (digits_value_bounds d 0 Hd ltac:(lia)) as Hb.
  assert (10 ^ Z.of_nat (length d) <= 10 ^ 7)%Z
    by (apply Z.pow_le_mono_r; lia).
  change (10 ^ 7)%Z with 10000000%Z in *. lia.
Qed.

Lemma parse_nonneg (text : option string) (v : Q) :
  parse_income_from_text text = Returned (Some v) -> (0 <= v)%Q.
Proof.
  destruct text as [s|]; [|discriminate].
  rewrite parse_normal.
  assert (Hplain : parse_plain (normalize s) = Returned (Some v) ->
                   (0 <= v)%Q).
  { intros H. destruct (parse_plain_range _ _ H) as [n [-> Hn]].
    apply inject_Z_nonneg. lia. }
  destruct (re_search k_pattern (normalize s)) as [m|] eqn:E;
    [|exact Hplain].
  destruct (search_from_sound _ _ _ _ E) as [prev' [rest' Hh]].
  destruct (match_here_k_sound _ _ _ Hh) as [num [Hnum Hg]].
  destruct (py_float_numeral num Hnum) as [x Hx].
  rewrite Hg, Hx. simpl. intros H. injection H as <-.
  apply Qmult_le_0_compat; [|discriminate].
  exact (numeral_value_nonneg num x Hnum Hx).
Qed.

(** X2.  An income is never negative, and unless the shorthand pattern
    matches it is a whole number of at most 9,999,999. *)
Theorem parse_result_range :
  (forall (text : option string) (v : Q),
      parse_income_from_text text = Returned (Some v) -> (0 <= v)%Q)
  /\ (forall (s : string) (v : Q),
         re_search k_pattern (normalize s) = None ->
         parse_income_from_text (Some s) = Returned (Some v) ->
         exists n, v = inject_Z n /\ (0 <= n <= 9999999)%Z).
Proof.
  split.
  - exact parse_nonneg.
  - intros s v Hk. rewrite parse_normal, Hk. apply parse_plain_range.
Qed.

Local Open Scope string_scope.

Lemma parse_result_range_witness :
  (0 <= (75 # 10) * 1000)%Q
  /\ exists n, inject_Z 25000 = inject_Z n /\ (0 <= n <= 9999999)%Z.
Proof.
  split.
  - apply (proj1 parse_result_range (Some "R 7.5k")).
    vm_compute. reflexivity.
  - apply (proj2 parse_result_range "I earn 25000 monthly");
      reflexivity.
Defined.

Local Close Scope string_scope.

Lemma no_digit_suffix a b : no_digit (a ++ b) = true -> no_digit b = true.
Proof.
  unfold no_digit. rewrite forallb_app. intros H.
  now apply andb_prop in H as [_ H].
Qed.

Lemma no_digit_starts s : no_digit s = true -> starts is_digit s = false.
Proof.
  destruct s as [|c s]; [reflexivity|]. simpl. intros H.
  apply andb_prop in H as [H _]. now apply negb_true_iff in H.
Qed.

Lemma no_digit_runs_below s : no_digit s = true -> runs_below 4 0 s = true.
Proof.
  induction s as [|c s IH]; [reflexivity|]. simpl. intros H.
  apply andb_prop in H as [Hc Hs]. apply negb_true_iff in Hc.
  rewrite Hc. now apply IH.
Qed.

Lemma match_here_k_no_digit prev rest :
  no_digit rest = true -> match_here k_pattern prev rest = None.
Proof.
  intros H. rewrite match_here_k.
  rewrite (k_number_nondigit prev rest [] (no_digit_starts rest H)).
  destruct rest as [|x rest]; [reflexivity|].
  simpl. destruct (Ascii.eqb x "r"); [|reflexivity].
  replace (rep _ _ _ _ _ _ _ _) with (@None captures); [reflexivity|].
  symmetry. apply rep_elim with (P := fun res => res = None); [reflexivity|].
  intros a b -> _ _. apply k_number_nondigit. apply no_digit_starts.
  apply (no_digit_suffix (x :: a) b). exact H.
Qed.

Lemma search_k_no_digit rest :
  forall prev, no_digit rest = true -> search_from k_pattern prev rest = None.
Proof.
  induction rest as [|c rest IH]; intros prev H;
    rewrite search_from_eq, (match_here_k_no_digit prev _ H); [reflexivity|].
  apply IH. apply (no_digit_suffix [c] rest). exact H.
Qed.

(** X3.  A text without a digit gives no income. *)
Theorem parse_needs_digit (s : string) :
  no_digit (normalize s) = true ->
  parse_income_from_text (Some s) = Returned None.
Proof.
  intros H. rewrite parse_normal. unfold re_search.
  rewrite (search_k_no_digit _ [] H). unfold parse_plain, re_search.
  now rewrite (search_plain_short _ 0 [] ltac:(lia) (no_digit_runs_below _ H)).
Qed.

Local Open Scope string_scope.

Lemma parse_needs_digit_witness :
  parse_income_from_text (Some "How much can I borrow, roughly?")
  = Returned None.
Proof.
  apply (parse_needs_digit "How much can I borrow, roughly?"). reflexivity.
Defined.

Local Close Scope string_scope.

Lemma k_glued_suffix a b : k_glued (a ++ b) = true -> k_glued b = true.
Proof.
  induction a as [|x a IH]; [auto|]. simpl. intros H.
  apply andb_prop in H as [_ H]. now apply IH.
Qed.

Lemma k_tail_glued prev rest caps :
  k_glued rest = true -> k_tail prev rest caps = None.
Proof.
  intros H. unfold k_tail. simpl.
  apply rep_elim with (P := fun res => res = None); [reflexivity|].
  intros a b -> _ _. apply k_glued_suffix in H.
  destruct b as [|x b]; [reflexivity|].
  simpl in H. apply andb_prop in H as [Hx _].
  destruct (Ascii.eqb x "k") eqn:E; [|reflexivity].
  simpl in Hx. apply Ascii.eqb_eq in E. subst x.
  unfold at_boundary. simpl word_before.
  change (word_after b) with (starts is_word b). now rewrite Hx.
Qed.

Lemma k_fraction_glued start prev rest caps :
  k_glued rest = true -> k_fraction start prev rest caps = None.
Proof.
  intros H. unfold k_fraction.
  assert (Hclose : forall p r c, k_glued r = true ->
                                 k_close start p r c = None).
  { intros p r c Hr. unfold k_close. now apply k_tail_glued. }
  rewrite (Hclose _ _ _ H).
  destruct rest as [|x rest]; [reflexivity|].
  destruct (Ascii.eqb x "."); [|reflexivity].
  replace (rep is_digit 1 None 0 (x :: prev) rest caps (k_close start))
    with (@None captures); [reflexivity|].
  symmetry. apply rep_elim with (P := fun res => res = None); [reflexivity|].
  intros a b -> _ _. apply Hclose.
  apply (k_glued_suffix (x :: a) b). exact H.
Qed.

Lemma k_number_glued prev rest caps :
  k_glued rest = true -> k_number prev rest caps = None.
Proof.
  intros H. unfold k_number.
  apply rep_elim with (P := fun res => res = None); [reflexivity|].
  intros a b -> _ _. apply k_fraction_glued. now apply k_glued_suffix in H.
Qed.

Lemma match_here_k_glued prev rest :
  k_glued rest = true -> match_here k_pattern prev rest = None.
Proof.
  intros H. rewrite match_here_k, (k_number_glued prev rest [] H).
  destruct rest as [|x rest]; [reflexivity|].
  simpl. destruct (Ascii.eqb x "r"); [|reflexivity].
  replace (rep _ _ _ _ _ _ _ _) with (@None captures); [reflexivity|].
  symmetry. apply rep_elim with (P := fun res => res = None); [reflexivity|].
  intros a b -> _ _. apply k_number_glued.
  apply (k_glued_suffix (x :: a) b). exact H.
Qed.

Lemma search_k_glued rest :
  forall prev, k_glued rest = true -> search_from k_pattern prev rest = None.
Proof.
  induction rest as [|c rest IH]; intros prev H;
    rewrite search_from_eq, (match_here_k_glued prev _ H); [reflexivity|].
  apply IH. apply (k_glued_suffix [c] rest). exact H.
Qed.

(** X4.  A [k] counts only as a whole word: when every [k] of the text is
    followed at once by a letter, a digit or an underscore, as in [5kg] or
    [25km], the shorthand pattern matches nowhere and the income is what
    the plain pattern finds. *)
Theorem glued_k_is_no_shorthand (s : string) :
  k_glued (normalize s) = true ->
  re_search k_pattern (normalize s) = None
  /\ parse_income_from_text (Some s) = parse_plain (normalize s).
Proof.
  intros H.
  assert (Hk : re_search k_pattern (normalize s) = None)
    by (apply search_k_glued; exact H).
  split; [exact Hk|]. now rewrite parse_normal, Hk.
Qed.

Local Open Scope string_scope.

(** Five kilograms are no income, and in [12500 km] it is the plain
    pattern that finds 12500. *)
Lemma glued_k_is_no_shorthand_witness :
  parse_income_from_text (Some "I carry 5kg of rice") = Returned None
  /\ parse_income_from_text (Some "a trip of 12500 km")
     = Returned (Some (inject_Z 12500)).
Proof.
  split.
  - rewrite (proj2 (glued_k_is_no_shorthand "I carry 5kg of rice" eq_refl)).
    reflexivity.
  - rewrite (proj2 (glued_k_is_no_shorthand "a trip of 12500 km" eq_refl)).
    reflexivity.
Defined.

Local Close Scope string_scope.

(** * The format field [:,.0f] *)

Lemma digit_char_spec d :
  (0 <= d <= 9)%Z ->
  is_digit (digit_char d) = true /\ digit_val (digit_char d) = d.
Proof.
  intros H.
  assert (E : (d = 0 \/ d = 1 \/ d = 2 \/ d = 3 \/ d = 4 \/ d = 5 \/ d = 6
               \/ d = 7 \/ d = 8 \/ d = 9)%Z) by lia.
  repeat (destruct E as [-> | E]; [split; reflexivity|]).
  subst d. split; reflexivity.
Qed.

Lemma digits_value_app x y :
  forall acc, digits_value acc (x ++ y) = digits_value (digits_value acc x) y.
Proof. induction x as [|c x IH]; intros acc; simpl; [reflexivity | apply IH]. Qed.

Lemma digits_of_eq fuel n acc :
  digits_of (S fuel) n acc =
  if (n <? 10)%Z then digit_char (n mod 10) :: acc
  else digits_of fuel (n / 10) (digit_char (n mod 10) :: acc).
Proof. reflexivity. Qed.

(** With fuel for all its digits, [digits_of] puts in front of [acc] the
    numeral of [n]: digits only, of value [n], without a leading zero. *)
Lemma digits_of_spec fuel :
  forall n acc,
    (0 <= n < 10 ^ Z.of_nat (S fuel))%Z ->
    exists ds,
      digits_of (S fuel) n acc = ds ++ acc
      /\ forallb is_digit ds = true
      /\ digits_value 0 ds = n
      /\ (length ds = 1 \/ (10 ^ (Z.of_nat (length ds) - 1) <= n)%Z).
Proof.
  induction fuel as [|fuel IH]; intros n acc Hn.
  - change (10 ^ Z.of_nat 1)%Z with 10%Z in Hn.
    exists [digit_char n]. rewrite digits_of_eq.
    assert (Hlt : (n <? 10)%Z = true) by (apply Z.ltb_lt; lia).
    rewrite Hlt, Z.mod_small by lia.
    destruct (digit_char_spec n ltac:(lia)) as [Hd Hv].
    split; [reflexivity|].
      split; [cbn [forallb]; now rewrite Hd|].
      split; [cbn [digits_value]; lia | now left].
  - rewrite digits_of_eq. destruct (n <? 10)%Z eqn:Hlt.
    + apply Z.ltb_lt in Hlt. rewrite Z.mod_small by lia.
      exists [digit_char n].
      destruct (digit_char_spec n ltac:(lia)) as [Hd Hv].
      split; [reflexivity|].
      split; [cbn [forallb]; now rewrite Hd|].
      split; [cbn [digits_value]; lia | now left].
    + apply Z.ltb_ge in Hlt.
      assert (Hq : (0 <= n / 10 < 10 ^ Z.of_nat (S fuel))%Z).
      { rewrite (Nat2Z.inj_succ (S fuel)), Z.pow_succ_r in Hn by lia.
        split; [apply Z.div_pos; lia|].
        apply Z.div_lt_upper_bound; lia. }
      destruct (IH (n / 10)%Z (digit_char (n mod 10) :: acc) Hq)
        as [ds [Heq [Hd [Hv Hlen]]]].
      pose proof (Z.mod_pos_bound n 10 ltac:(lia)) as Hm.
      destruct (digit_char_spec (n mod 10) ltac:(lia)) as [Hd1 Hv1].
      exists (ds ++ [digit_char (n mod 10)]).
      rewrite Heq, <- app_assoc. split; [reflexivity|].
      split; [rewrite forallb_app; cbn [forallb]; now rewrite Hd, Hd1|].
      split.
      * rewrite digits_value_app, Hv. cbn [digits_value]. rewrite Hv1.
        pose proof (Z.div_mod n 10 ltac:(lia)). lia.
      * right. rewrite length_app. simpl length.
        replace (Z.of_nat (length ds + 1) - 1)%Z with (Z.of_nat (length ds))
          by lia.
        pose proof (Z.div_mod n 10 ltac:(lia)) as Hdm.
        destruct Hlen as [H1 | Hge].
        -- rewrite H1. change (10 ^ Z.of_nat 1)%Z with 10%Z. lia.
        -- assert (1 <= length ds).
           { destruct ds; [simpl in Hv; lia | simpl; lia]. }
           replace (Z.of_nat (length ds))
             with (Z.succ (Z.of_nat (length ds) - 1)) by lia.
           rewrite Z.pow_succ_r by lia. lia.
Qed.

Lemma decimal_spec n :
  (0 <= n)%Z ->
  forallb is_digit (decimal n) = true
  /\ digits_value 0 (decimal n) = n
  /\ (length (decimal n) = 1
      \/ (10 ^ (Z.of_nat (length (decimal n)) - 1) <= n)%Z).
Proof.
  intros Hn. unfold decimal.
  assert (Hfuel : (0 <= n < 10 ^ Z.of_nat (S (Z.to_nat (Z.log2 n))))%Z).
  { split; [exact Hn|].
    pose proof (Z.log2_nonneg n) as Hl.
    rewrite Nat2Z.inj_succ, Z2Nat.id by exact Hl.
    destruct (Z.eq_dec n 0) as [-> | Hne]; [reflexivity|].
    pose proof (Z.log2_spec n ltac:(lia)) as [_ Hs].
    apply Z.lt_le_trans with (2 ^ Z.succ (Z.log2 n))%Z; [exact Hs|].
    apply Z.pow_le_mono_l. lia. }
  destruct (digits_of_spec _ n [] Hfuel) as [ds [Heq [Hd [Hv Hlen]]]].
  rewrite Heq, app_nil_r. auto.
Qed.

Lemma strip_group_right rd :
  forall i, forallb is_digit rd = true ->
            strip_commas (group_right i rd) = rd.
Proof.
  induction rd as [|d rd IH]; intros i H; [reflexivity|].
  simpl in H. apply andb_prop in H as [Hd Hrd].
  simpl. destruct (i =? 3); simpl; rewrite (digit_not_comma d Hd); simpl;
    now rewrite IH.
Qed.

Lemma forallb_reversed (p : ascii -> bool) l :
  forallb p (rev l) = forallb p l.
Proof.
  induction l as [|c l IH]; [reflexivity|].
  simpl. rewrite forallb_app, IH. simpl.
  rewrite andb_true_r. apply andb_comm.
Qed.

Lemma strip_grouped ds :
  forallb is_digit ds = true -> strip_commas (grouped ds) = ds.
Proof.
  intros H. unfold grouped, strip_commas. rewrite filter_rev.
  fold (strip_commas (group_right 0 (rev ds))).
  rewrite strip_group_right; [apply rev_involutive|].
  now rewrite forallb_reversed.
Qed.

Lemma group_right_3 d rd :
  group_right 3 (d :: rd) = ","%char :: group_right 0 (d :: rd).
Proof. reflexivity. Qed.

(** X5.  The thousands separators: a numeral of up to three digits is
    printed as it is, and a longer one as the grouping of all but its last
    three digits, a comma, and the last three digits. *)
Theorem grouped_by_three :
  (forall ds : list ascii, length ds <= 3 -> grouped ds = ds)
  /\ (forall a b : list ascii,
         a <> [] -> length b = 3 ->
         grouped (a ++ b) = grouped a ++ ","%char :: b).
Proof.
  split.
  - intros ds H. unfold grouped.
    assert (E : forall rd, length rd <= 3 -> group_right 0 rd = rd).
    { intros [|x [|y [|z [|w rd]]]] Hl; try reflexivity. simpl in Hl. lia. }
    rewrite E by (rewrite length_rev; exact H). apply rev_involutive.
  - intros a b Ha Hb. unfold grouped.
    destruct b as [|b1 [|b2 [|b3 [|b4 b]]]]; try discriminate.
    rewrite rev_app_distr.
    destruct (rev a) as [|d ra] eqn:E.
    { apply (f_equal (@rev ascii)) in E. rewrite rev_involutive in E.
      simpl in E. contradiction. }
    change (rev [b1; b2; b3]) with [b3; b2; b1].
    change (group_right 0 ([b3; b2; b1] ++ d :: ra))
      with (b3 :: b2 :: b1 :: group_right 3 (d :: ra)).
    rewrite group_right_3. simpl rev.
    now rewrite <- !app_assoc.
Qed.

Local Open Scope string_scope.

Lemma grouped_by_three_witness :
  grouped (list_ascii_of_string "999") = list_ascii_of_string "999"
  /\ grouped (list_ascii_of_string "1234" ++ list_ascii_of_string "567")%list
     = (grouped (list_ascii_of_string "1234")
        ++ ","%char :: list_ascii_of_string "567")%list.
Proof.
  split.
  - apply (proj1 grouped_by_three). simpl. lia.
  - apply (proj2 grouped_by_three); [discriminate | reflexivity].
Defined.

Local Close Scope string_scope.

Lemma round_half_even_Z n : round_half_even (inject_Z n) = n.
Proof.
  unfold round_half_even. rewrite Qfloor_Z.
  replace (inject_Z n - inject_Z n ?= 1 # 2)%Q with Lt; [reflexivity|].
  symmetry. apply Qlt_alt. unfold Qminus. rewrite Qplus_opp_r. reflexivity.
Qed.

(** The rounded value is an integer nearest to [x]. *)
Lemma round_half_even_near x :
  (x - (1 # 2) <= inject_Z (round_half_even x))%Q
  /\ (inject_Z (round_half_even x) <= x + (1 # 2))%Q.
Proof.
  unfold round_half_even.
  pose proof (Qfloor_le x) as Hlo. pose proof (Qlt_floor x) as Hhi.
  rewrite inject_Z_plus in Hhi.
  assert (Hcases :
            forall r, (r = Qfloor x /\ x - inject_Z (Qfloor x) <= 1 # 2)%Q
                      \/ (r = (Qfloor x + 1)%Z
                          /\ (1 # 2 <= x - inject_Z (Qfloor x))%Q) ->
                      (x - (1 # 2) <= inject_Z r)%Q
                      /\ (inject_Z r <= x + (1 # 2))%Q).
  { intros r [[-> H] | [-> H]].
    - split; lra.
    - rewrite inject_Z_plus. change (inject_Z 1) with 1%Q in *. split; lra. }
  apply Hcases.
  destruct (x - inject_Z (Qfloor x) ?= 1 # 2)%Q eqn:E.
  - apply Qeq_alt in E.
    destruct (Z.even (Qfloor x)); [left | right]; split; auto; lra.
  - apply Qlt_alt in E. left. split; [reflexivity | lra].
  - apply Qgt_alt in E. right. split; [reflexivity | lra].
Qed.

Lemma round_half_even_nonneg x : (0 <= x)%Q -> (0 <= round_half_even x)%Z.
Proof.
  intros H. unfold round_half_even.
  assert (Hf : (0 <= Qfloor x)%Z).
  { change 0%Z with (Qfloor 0). now apply Qfloor_resp_le. }
  destruct (x - inject_Z (Qfloor x) ?= 1 # 2)%Q;
    [destruct (Z.even (Qfloor x))| |]; lia.
Qed.

Lemma format_money_nonneg x :
  (0 <= x)%Q -> format_money x = grouped (decimal (round_half_even x)).
Proof.
  intros H. unfold format_money.
  destruct (Qlt_le_dec x 0) as [Hlt | _].
  - exfalso. apply (Qlt_irrefl 0). now apply Qle_lt_trans with x.
  - simpl. now rewrite Z.abs_eq by (apply round_half_even_nonneg; exact H).
Qed.

(** X6.  The amount printed for a number that is not negative reads,
    without its commas, as that number rounded to a nearest integer: the
    digits spell an integer within one half of the number. *)
Theorem printed_amount_value (x : Q) :
  (0 <= x)%Q ->
  forallb is_digit (strip_commas (format_money x)) = true
  /\ (x - (1 # 2) <= inject_Z (digits_value 0 (strip_commas (format_money x))))%Q
  /\ (inject_Z (digits_value 0 (strip_commas (format_money x))) <= x + (1 # 2))%Q.
Proof.
  intros H. rewrite (format_money_nonneg x H).
  destruct (decimal_spec (round_half_even x) (round_half_even_nonneg x H))
    as [Hd [Hv _]].
  rewrite (strip_grouped _ Hd), Hv.
  split; [exact Hd|]. apply round_half_even_near.
Qed.

(** The bond amount 553650.499 is printed as 553,650. *)
Lemma printed_amount_value_witness :
  forallb is_digit (strip_commas (format_money 553650.499)) = true
  /\ (553650.499 - (1 # 2)
      <= inject_Z (digits_value 0 (strip_commas (format_money 553650.499))))%Q
  /\ (inject_Z (digits_value 0 (strip_commas (format_money 553650.499)))
      <= 553650.499 + (1 # 2))%Q.
Proof.
  apply (printed_amount_value 553650.499). vm_compute. discriminate.
Defined.

Lemma list_ascii_of_string_app (s1 s2 : string) :
  list_ascii_of_string (s1 ++ s2)%string
  = list_ascii_of_string s1 ++ list_ascii_of_string s2.
Proof. induction s1 as [|c s1 IH]; simpl; [reflexivity | now rewrite IH]. Qed.

Lemma normalize_app (s1 s2 : string) :
  normalize (s1 ++ s2)%string = normalize s1 ++ normalize s2.
Proof.
  unfold normalize, lower, strip_commas.
  now rewrite list_ascii_of_string_app, map_app, filter_app.
Qed.

Lemma lower_digits ds : forallb is_digit ds = true -> lower ds = ds.
Proof.
  induction ds as [|c ds IH]; [reflexivity|]. simpl. intros H.
  apply andb_prop in H as [Hc Hds].
  now rewrite (lower_char_digit c Hc), IH.
Qed.

Lemma strip_digits ds : forallb is_digit ds = true -> strip_commas ds = ds.
Proof.
  induction ds as [|c ds IH]; [reflexivity|]. simpl. intros H.
  apply andb_prop in H as [Hc Hds].
  rewrite (digit_not_comma c Hc). simpl. now rewrite IH.
Qed.

(** The printed amount of a whole number, lowercased and without commas,
    is [r] and the numeral. *)
Lemma normalize_shown_amount n :
  (0 <= n)%Z ->
  normalize (shown_amount (inject_Z n)) = "r"%char :: decimal n.
Proof.
  intros Hn. unfold shown_amount, normalize.
  cbn [list_ascii_of_string]. rewrite list_ascii_of_string_of_list_ascii.
  rewrite format_money_nonneg by (now apply inject_Z_nonneg).
  rewrite round_half_even_Z.
  destruct (decimal_spec n Hn) as [Hd _].
  change (strip_commas (lower ("R"%char :: grouped (decimal n))))
    with ("r"%char :: strip_commas (lower (grouped (decimal n)))).
  f_equal.
  rewrite <- strip_lower_strip, (strip_grouped _ Hd).
  now rewrite (lower_digits _ Hd), (strip_digits _ Hd).
Qed.

Lemma runs_below_snoc c l :
  is_digit c = false ->
  forall n, runs_below 4 n l = true -> runs_below 4 n (l ++ [c]) = true.
Proof.
  intros Hc. induction l as [|x l IH]; intros n H.
  - simpl. now rewrite Hc.
  - simpl in H |- *. destruct (is_digit x).
    + apply andb_prop in H as [H1 H2]. rewrite H1. simpl. now apply IH.
    + now apply IH.
Qed.

Lemma ends_in_snoc (p : ascii -> bool) c l : ends_in p (l ++ [c]) = p c.
Proof.
  induction l as [|x l IH]; [reflexivity|].
  simpl. destruct (l ++ [c]) eqn:E; [|exact IH].
  destruct l; discriminate.
Qed.

Lemma has_char_digits ds :
  forallb is_digit ds = true -> has_char "k" ds = false.
Proof.
  induction ds as [|c ds IH]; [reflexivity|]. simpl. intros H.
  apply andb_prop in H as [Hc Hds].
  now rewrite (digit_not_k c Hc), (IH Hds).
Qed.

Lemma decimal_length n :
  (1000 <= n <= 9999999)%Z ->
  4 <= length (decimal n) /\ length (decimal n) <= 7.
Proof.
  intros Hn. destruct (decimal_spec n ltac:(lia)) as [Hd [Hv Hlen]].
  pose proof (digits_value_bounds (decimal n) 0 Hd ltac:(lia)) as Hb.
  rewrite Hv in Hb. split.
  - destruct (Nat.lt_ge_cases (length (decimal n)) 4) as [Hlt|]; [|assumption].
    exfalso.
    assert (10 ^ Z.of_nat (length (decimal n)) <= 10 ^ 3)%Z
      by (apply Z.pow_le_mono_r; lia).
    change (10 ^ 3)%Z with 1000%Z in *. lia.
  - destruct Hlen as [-> | Hge]; [lia|].
    destruct (Nat.lt_ge_cases 7 (length (decimal n))) as [Hgt|]; [|assumption].
    exfalso.
    assert (10 ^ 7 <= 10 ^ (Z.of_nat (length (decimal n)) - 1))%Z
      by (apply Z.pow_le_mono_r; lia).
    change (10 ^ 7)%Z with 10000000%Z in *. lia.
Qed.

(** X7.  What the report prints is read back: an amount of four to seven
    digits, printed as [R] and the digits with thousands separators, is
    extracted again as the same number from any text that has no [k], no
    run of four digits before the amount, and a non-word character or
    nothing right after it. *)
Theorem shown_amount_read_back (pre post : string) (n : Z) :
  (1000 <= n <= 9999999)%Z ->
  runs_below 4 0 (normalize pre) = true ->
  has_char "k" (normalize pre) = false ->
  has_char "k" (normalize post) = false ->
  starts is_word (normalize post) = false ->
  parse_income_from_text
    (Some (pre ++ shown_amount (inject_Z n) ++ post)%string)
  = Returned (Some (inject_Z n)).
Proof.
  intros Hn Hruns Hkpre Hkpost Hpost.
  destruct (decimal_spec n ltac:(lia)) as [Hd [Hv _]].
  destruct (decimal_length n Hn) as [Hmin Hmax].
  assert (Hnorm : normalize (pre ++ shown_amount (inject_Z n) ++ post)%string
                  = (normalize pre ++ ["r"%char]) ++ decimal n ++ normalize post).
  { rewrite !normalize_app, normalize_shown_amount by lia.
    now rewrite <- app_assoc. }
  rewrite parse_normal, Hnorm. unfold re_search.
  rewrite search_k_no_k.
  - unfold parse_plain, re_search.
    destruct (search_plain_run (decimal n) (normalize post) Hd Hmin Hmax Hpost
                (normalize pre ++ ["r"%char]) 0 [] ltac:(lia)
                (runs_below_snoc "r" _ eq_refl 0 Hruns)
                (ends_in_snoc is_digit "r" _)) as [m [Hm Hg]].
    rewrite Hm, Hg,
      (py_float_int _ (longer_nonempty (decimal n) 0 ltac:(lia)) Hd).
    simpl. now rewrite dec_value_int, Hv.
  - unfold has_char in *. rewrite !existsb_app. simpl.
    fold (has_char "k" (decimal n)).
    now rewrite Hkpre, Hkpost, (has_char_digits _ Hd).
Qed.

Local Open Scope string_scope.

(** The example of the guidance message, with the amount as the report
    prints it. *)
Lemma shown_amount_read_back_witness :
  parse_income_from_text
    (Some ("I earn " ++ shown_amount (inject_Z 20000) ++ " per month"))
  = Returned (Some (inject_Z 20000)).
Proof.
  apply (shown_amount_read_back "I earn " " per month" 20000);
    try reflexivity. lia.
Defined.

Local Close Scope string_scope.

(** * Further properties of [estimate_loan_amount] *)

Local Open Scope Q_scope.

Lemma base_pos r : 0 <= r -> 0 < 1 + r.
Proof. intros H. lra. Qed.

Lemma base_nonzero r : 0 <= r -> ~ 1 + r == 0.
Proof. intros H E. lra. Qed.

Lemma periodic_rate_nonneg rate : 0 <= rate -> 0 <= periodic_rate rate.
Proof.
  intros H. unfold periodic_rate, Qdiv.
  repeat apply Qmult_le_0_compat; try exact H; discriminate.
Qed.

Lemma periodic_rate_mono r1 r2 :
  r1 <= r2 -> periodic_rate r1 <= periodic_rate r2.
Proof.
  intros H. unfold periodic_rate.
  apply div_le_compat; [reflexivity|].
  apply div_le_compat; [reflexivity | exact H].
Qed.

Lemma affordable_nonneg inc pct :
  0 <= inc -> (0 <= pct)%Z -> 0 <= affordable inc pct.
Proof.
  intros Hi Hp. unfold affordable.
  apply Qmult_le_0_compat; [exact Hi | now apply share_nonneg].
Qed.

Lemma inject_Z_succ (n : nat) :
  inject_Z (Z.of_nat (S n)) == inject_Z (Z.of_nat n) + 1.
Proof. rewrite Nat2Z.inj_succ, <- Z.add_1_r, inject_Z_plus. reflexivity. Qed.

(** One more period of discounting. *)
Lemma discount_step r (k : nat) :
  0 <= r ->
  (1 + r) ^ (- Z.of_nat (S k)) * (1 + r) == (1 + r) ^ (- Z.of_nat k).
Proof.
  intros Hr.
  replace (- Z.of_nat k)%Z with (- Z.of_nat (S k) + 1)%Z by lia.
  rewrite (Qpower_plus _ _ _ (base_nonzero r Hr)). reflexivity.
Qed.

Lemma discount_factor_range r (k : nat) :
  0 <= r -> 0 < (1 + r) ^ (- Z.of_nat k) /\ (1 + r) ^ (- Z.of_nat k) <= 1.
Proof.
  intros Hr. split.
  - apply Qpower_0_lt. now apply base_pos.
  - change 1 with ((1 + r) ^ 0) at 2.
    apply Qpower_le_compat_l; [lia | lra].
Qed.

(** The closed form the code uses is the sum of the discounted payments. *)
Lemma annuity_closed_form p r (n : nat) :
  0 < r ->
  p * (1 - (1 + r) ^ (- Z.of_nat n)) / r == discounted_sum p r n.
Proof.
  intros Hr. induction n as [|n IH].
  - simpl. field. lra.
  - cbn [discounted_sum]. rewrite <- IH.
    rewrite <- (discount_step r n) by lra.
    field. lra.
Qed.

Lemma discounted_sum_zero_rate p r (n : nat) :
  r == 0 -> discounted_sum p r n == p * inject_Z (Z.of_nat n).
Proof.
  intros Hr. induction n as [|n IH].
  - simpl. ring.
  - cbn [discounted_sum]. rewrite IH, Hr, Qplus_0_r, Qpower_1.
    rewrite inject_Z_succ. ring.
Qed.

Lemma discounted_sum_cap p r (n : nat) :
  0 <= p -> 0 <= r -> discounted_sum p r n <= p * inject_Z (Z.of_nat n).
Proof.
  intros Hp Hr. induction n as [|n IH].
  - simpl. rewrite Qmult_0_r. apply Qle_refl.
  - cbn [discounted_sum].
    destruct (discount_factor_range r (S n) Hr) as [_ Hle].
    assert (H : p * (1 + r) ^ (- Z.of_nat (S n)) <= p * 1)
      by (now apply mult_le_compat_l).
    rewrite inject_Z_succ, Qmult_plus_distr_r.
    now apply Qplus_le_compat.
Qed.

Lemma periods_nat years :
  (0 <= years)%Z -> Z.of_nat (Z.to_nat (years * 12)) = (years * 12)%Z.
Proof. intros H. apply Z2Nat.id. lia. Qed.

(** On arguments that are not negative, the result without the clamp. *)
Lemma estimate_unclamped inc rate years pct :
  0 <= inc -> (0 <= pct)%Z -> (0 <= years)%Z ->
  exists v,
    estimate_loan_amount inc rate years pct = Returned (Some v)
    /\ v == (if Qle_bool (periodic_rate rate) 0
             then affordable inc pct * inject_Z (years * 12)
             else affordable inc pct
                  * (1 - (1 + periodic_rate rate) ^ (- (years * 12)))
                  / periodic_rate rate).
Proof.
  intros Hi Hp Hy.
  destruct (estimate_annuity_nonneg inc rate years pct Hi Hp Hy)
    as [v [Hv E]].
  exists v. split; [exact Hv|]. exact E.
Qed.

(** X8.  With an income, a percentage, a term and a rate that are not
    negative, the estimate is the sum of the affordable payments of all
    the months of the term, each discounted at the monthly rate over the
    months until it is paid. *)
Theorem estimate_is_discounted_sum (inc rate : Q) (years pct : Z) :
  0 <= inc -> (0 <= pct)%Z -> (0 <= years)%Z -> 0 <= rate ->
  exists v,
    estimate_loan_amount inc rate years pct = Returned (Some v)
    /\ v == discounted_sum (affordable inc pct) (periodic_rate rate)
                           (Z.to_nat (years * 12)).
Proof.
  intros Hi Hp Hy Hr.
  destruct (estimate_unclamped inc rate years pct Hi Hp Hy) as [v [Hv E]].
  exists v. split; [exact Hv|]. rewrite E.
  pose proof (periodic_rate_nonneg rate Hr) as Hr0.
  destruct (Qle_bool (periodic_rate rate) 0) eqn:B.
  - apply Qle_bool_iff in B.
    rewrite discounted_sum_zero_rate by (now apply Qle_antisym).
    now rewrite periods_nat.
  - apply Qle_bool_false in B.
    rewrite <- annuity_closed_form by exact B.
    now rewrite periods_nat.
Qed.

(** Twelve payments of 6000 at a rate of 12 percent a year. *)
Lemma estimate_is_discounted_sum_witness :
  exists v,
    estimate_loan_amount 20000 12 1 30 = Returned (Some v)
    /\ v == discounted_sum (affordable 20000 30) (periodic_rate 12)
                           (Z.to_nat (1 * 12)).
Proof.
  apply (estimate_is_discounted_sum 20000 12 1 30);
    [vm_compute; discriminate | lia | lia | vm_compute; discriminate].
Defined.

(** X9.  In exact arithmetic the estimate never exceeds the payments
    added up: with an income, a percentage and a term that are not
    negative, a value is returned and it is at most the affordable
    payment times the number of months, at any rate. *)
Theorem estimate_at_most_payments (inc rate : Q) (years pct : Z) :
  0 <= inc -> (0 <= pct)%Z -> (0 <= years)%Z ->
  exists v,
    estimate_loan_amount inc rate years pct = Returned (Some v)
    /\ v <= affordable inc pct * inject_Z (years * 12).
Proof.
  intros Hi Hp Hy.
  destruct (estimate_unclamped inc rate years pct Hi Hp Hy) as [v [Hv E]].
  exists v. split; [exact Hv|]. rewrite E.
  destruct (Qle_bool (periodic_rate rate) 0) eqn:B; [apply Qle_refl|].
  apply Qle_bool_false in B.
  rewrite <- (periods_nat years Hy).
  rewrite annuity_closed_form by exact B.
  apply discounted_sum_cap; [now apply affordable_nonneg | lra].
Qed.

Lemma estimate_at_most_payments_witness :
  exists v,
    estimate_loan_amount 20000 11.75 20 30 = Returned (Some v)
    /\ v <= affordable 20000 30 * inject_Z (20 * 12).
Proof.
  apply (estimate_at_most_payments 20000 11.75 20 30);
    [vm_compute; discriminate | lia | lia].
Defined.

Lemma inv_antitone a b : 0 < a -> a <= b -> / b <= / a.
Proof.
  intros Ha Hab.
  assert (Hb : 0 < b) by lra.
  apply Qle_shift_inv_l; [exact Ha|].
  apply Qle_trans with (/ b * b).
  - apply mult_le_compat_l; [|exact Hab].
    apply Qinv_le_0_compat. lra.
  - rewrite Qmult_comm, Qmult_inv_r; [apply Qle_refl | lra].
Qed.

(** A higher rate discounts every payment at least as much. *)
Lemma discount_factor_antitone r1 r2 (k : nat) :
  0 <= r1 -> r1 <= r2 ->
  (1 + r2) ^ (- Z.of_nat k) <= (1 + r1) ^ (- Z.of_nat k).
Proof.
  intros H1 H12. assert (H2 : 0 <= r2) by lra.
  induction k as [|k IH]; [apply Qle_refl|].
  assert (E : forall r, 0 <= r ->
                (1 + r) ^ (- Z.of_nat (S k))
                == (1 + r) ^ (- Z.of_nat k) * / (1 + r)).
  { intros r Hr.
    replace (- Z.of_nat (S k))%Z with (- Z.of_nat k + -1)%Z by lia.
    rewrite (Qpower_plus _ _ _ (base_nonzero r Hr)). reflexivity. }
  rewrite (E r1 H1), (E r2 H2).
  apply Qmult_le_compat_nonneg.
  - split; [|exact IH].
    apply Qlt_le_weak. now apply discount_factor_range.
  - split.
    + apply Qinv_le_0_compat. lra.
    + apply inv_antitone; lra.
Qed.

Lemma discounted_sum_antitone p r1 r2 (n : nat) :
  0 <= p -> 0 <= r1 -> r1 <= r2 ->
  discounted_sum p r2 n <= discounted_sum p r1 n.
Proof.
  intros Hp H1 H12. induction n as [|n IH]; [apply Qle_refl|].
  cbn [discounted_sum]. apply Qplus_le_compat; [exact IH|].
  apply mult_le_compat_l; [exact Hp|].
  now apply discount_factor_antitone.
Qed.

(** X10.  In exact arithmetic a higher rate never gives a larger
    principal: with an income, a percentage and a term that are not
    negative, a value is returned at both rates and the estimate does not
    increase when the rate does, across the rates at or below zero, where
    nothing is discounted, as well as above. *)
Theorem estimate_rate_antitone (inc : Q) (years pct : Z) (rate1 rate2 : Q) :
  0 <= inc -> (0 <= pct)%Z -> (0 <= years)%Z -> rate1 <= rate2 ->
  exists v1 v2,
    estimate_loan_amount inc rate1 years pct = Returned (Some v1)
    /\ estimate_loan_amount inc rate2 years pct = Returned (Some v2)
    /\ v2 <= v1.
Proof.
  intros Hi Hp Hy H12.
  destruct (estimate_unclamped inc rate1 years pct Hi Hp Hy) as [v1 [Hv1 E1]].
  destruct (estimate_unclamped inc rate2 years pct Hi Hp Hy) as [v2 [Hv2 E2]].
  exists v1, v2. split; [exact Hv1|]. split; [exact Hv2|].
  rewrite E1, E2.
  pose proof (periodic_rate_mono rate1 rate2 H12) as Hm.
  pose proof (affordable_nonneg inc pct Hi Hp) as Hpay.
  destruct (Qle_bool (periodic_rate rate2) 0) eqn:B2.
  - apply Qle_bool_iff in B2.
    assert (B1 : Qle_bool (periodic_rate rate1) 0 = true)
      by (apply Qle_bool_iff; lra).
    rewrite B1. apply Qle_refl.
  - apply Qle_bool_false in B2.
    rewrite <- (periods_nat years Hy).
    rewrite (annuity_closed_form _ _ _ B2).
    destruct (Qle_bool (periodic_rate rate1) 0) eqn:B1.
    + apply discounted_sum_cap; [exact Hpay | lra].
    + apply Qle_bool_false in B1.
      rewrite (annuity_closed_form _ _ _ B1).
      apply discounted_sum_antitone; [exact Hpay | lra | exact Hm].
Qed.

(** From the lowest rate of the sidebar to the highest. *)
Lemma estimate_rate_antitone_witness :
  exists v1 v2,
    estimate_loan_amount 20000 5 20 30 = Returned (Some v1)
    /\ estimate_loan_amount 20000 25 20 30 = Returned (Some v2)
    /\ v2 <= v1.
Proof.
  apply (estimate_rate_antitone 20000 20 30 5 25);
    [vm_compute; discriminate | lia | lia | vm_compute; discriminate].
Defined.

Lemma Qmax_scale c a : 0 <= c -> Qmax (c * a) 0 == c * Qmax a 0.
Proof.
  intros Hc. destruct (Qlt_le_dec a 0) as [Ha | Ha].
  - rewrite (Q.max_r a 0) by lra. rewrite Q.max_r.
    + ring.
    + rewrite <- (Qmult_0_r c). apply mult_le_compat_l; [exact Hc | lra].
  - rewrite (Q.max_l a 0) by exact Ha. apply Q.max_l.
    now apply Qmult_le_0_compat.
Qed.

(** X11.  In exact arithmetic the estimate is proportional to the
    income: a value is returned for both incomes, and multiplying the
    income by a factor that is not negative multiplies the principal by
    the same factor, at every rate, term and percentage. *)
Theorem estimate_scales_with_income (c inc rate : Q) (years pct : Z) :
  0 <= c ->
  exists v vc,
    estimate_loan_amount inc rate years pct = Returned (Some v)
    /\ estimate_loan_amount (c * inc) rate years pct = Returned (Some vc)
    /\ vc == c * v.
Proof.
  intros Hc. rewrite !estimate_eq. do 2 eexists.
  split; [reflexivity|]. split; [reflexivity|].
  unfold affordable.
  destruct (Qle_bool (periodic_rate rate) 0) eqn:B; [ring|].
  apply Qle_bool_false in B.
  rewrite !py_max_zero, <- Qmax_scale by exact Hc.
  apply Q.max_compat; [|reflexivity].
  field. lra.
Qed.

(** Twice the income, twice the principal. *)
Lemma estimate_scales_with_income_witness :
  exists v vc,
    estimate_loan_amount 20000 11.75 20 30 = Returned (Some v)
    /\ estimate_loan_amount (2 * 20000) 11.75 20 30 = Returned (Some vc)
    /\ vc == 2 * v.
Proof.
  apply (estimate_scales_with_income 2 20000 11.75 20 30).
  vm_compute. discriminate.
Defined.

(** The balance in closed form, multiplied by the rate. *)
Lemma balance_closed P p r (k : nat) :
  balance P p r k * r == (P * r - p) * (1 + r) ^ Z.of_nat k + p.
Proof.
  induction k as [|k IH].
  - simpl. ring.
  - cbn [balance].
    replace (Z.of_nat (S k)) with (Z.of_nat k + 1)%Z by lia.
    rewrite Qpower_plus' by lia.
    change ((1 + r) ^ 1) with (1 + r).
    setoid_replace ((balance P p r k * (1 + r) - p) * r)
      with (balance P p r k * r * (1 + r) - p * r) by ring.
    rewrite IH. ring.
Qed.

Lemma balance_zero_rate P p r (k : nat) :
  r == 0 -> balance P p r k == P - inject_Z (Z.of_nat k) * p.
Proof.
  intros Hr. induction k as [|k IH].
  - simpl. ring.
  - cbn [balance]. rewrite IH, Hr, inject_Z_succ. ring.
Qed.

Lemma discount_undone r (n : nat) :
  0 <= r -> (1 + r) ^ (- Z.of_nat n) * (1 + r) ^ Z.of_nat n == 1.
Proof.
  intros Hr. rewrite <- (Qpower_plus _ _ _ (base_nonzero r Hr)).
  now replace (- Z.of_nat n + Z.of_nat n)%Z with 0%Z by lia.
Qed.

(** X12.  The estimate is the loan the affordable payment repays: with an
    income, a percentage, a term and a rate that are not negative, a loan
    of the estimated principal on which every month the interest is added
    and the affordable payment deducted is at zero after the last month
    of the term. *)
Theorem estimate_is_repaid (inc rate : Q) (years pct : Z) :
  0 <= inc -> (0 <= pct)%Z -> (0 <= years)%Z -> 0 <= rate ->
  exists v,
    estimate_loan_amount inc rate years pct = Returned (Some v)
    /\ balance v (affordable inc pct) (periodic_rate rate)
               (Z.to_nat (years * 12)) == 0.
Proof.
  intros Hi Hp Hy Hr.
  destruct (estimate_unclamped inc rate years pct Hi Hp Hy) as [v [Hv E]].
  exists v. split; [exact Hv|].
  pose proof (periodic_rate_nonneg rate Hr) as Hr0.
  destruct (Qle_bool (periodic_rate rate) 0) eqn:B.
  - apply Qle_bool_iff in B.
    rewrite balance_zero_rate by (now apply Qle_antisym).
    rewrite E, periods_nat by exact Hy. ring.
  - apply Qle_bool_false in B.
    rewrite <- (periods_nat years Hy) in E.
    set (n := Z.to_nat (years * 12)) in *.
    set (r := periodic_rate rate) in *.
    set (p := affordable inc pct) in *.
    assert (Hbr : balance v p r n * r == 0).
    { rewrite balance_closed.
      setoid_replace (v * r - p) with (- p * (1 + r) ^ (- Z.of_nat n)).
      - setoid_replace (- p * (1 + r) ^ (- Z.of_nat n) * (1 + r) ^ Z.of_nat n)
          with (- p * ((1 + r) ^ (- Z.of_nat n) * (1 + r) ^ Z.of_nat n))
          by ring.
        rewrite discount_undone by exact Hr0. ring.
      - rewrite E. field. lra. }
    apply Qmult_integral in Hbr. destruct Hbr as [H0 | H0]; [exact H0 | lra].
Qed.

(** A loan over one year at 12 percent. *)
Lemma estimate_is_repaid_witness :
  exists v,
    estimate_loan_amount 20000 12 1 30 = Returned (Some v)
    /\ balance v (affordable 20000 30) (periodic_rate 12) (Z.to_nat (1 * 12))
       == 0.
Proof.
  apply (estimate_is_repaid 20000 12 1 30);
    [vm_compute; discriminate | lia | lia | vm_compute; discriminate].
Defined.

Lemma affordable_zero_iff inc pct :
  affordable inc pct == 0 <-> (inc == 0 \/ pct = 0%Z).
Proof.
  unfold affordable. split.
  - intros H. apply Qmult_integral in H. destruct H as [H | H]; [now left|].
    right. unfold Qdiv in H. apply Qmult_integral in H.
    destruct H as [H | H]; [|discriminate H].
    unfold Qeq in H. simpl in H. lia.
  - intros [H | ->]; [rewrite H; ring|].
    change (inject_Z 0) with 0%Q. unfold Qdiv. ring.
Qed.

(** X13.  In exact arithmetic, zero in, zero out, and only then: with an
    income, a percentage and a term that are not negative, a value is
    returned and it is zero exactly when the income, the percentage or
    the term is zero, at every rate. *)
Theorem estimate_zero_iff (inc rate : Q) (years pct : Z) :
  0 <= inc -> (0 <= pct)%Z -> (0 <= years)%Z ->
  exists v,
    estimate_loan_amount inc rate years pct = Returned (Some v)
    /\ (v == 0 <-> (inc == 0 \/ pct = 0%Z \/ years = 0%Z)).
Proof.
  intros Hi Hp Hy.
  destruct (estimate_unclamped inc rate years pct Hi Hp Hy) as [v [Hv E]].
  exists v. split; [exact Hv|]. rewrite E. clear E Hv.
  assert (Hfactor : forall F, (F == 0 <-> years = 0%Z) ->
            (affordable inc pct * F == 0
             <-> (inc == 0 \/ pct = 0%Z \/ years = 0%Z))).
  { intros F HF. split.
    - intros H. apply Qmult_integral in H. destruct H as [H | H].
      + apply affordable_zero_iff in H. tauto.
      + apply HF in H. tauto.
    - intros [H | [H | H]].
      + rewrite (proj2 (affordable_zero_iff inc pct) (or_introl H)). ring.
      + rewrite (proj2 (affordable_zero_iff inc pct) (or_intror H)). ring.
      + rewrite (proj2 HF H). ring. }
  destruct (Qle_bool (periodic_rate rate) 0) eqn:B.
  - apply Hfactor. split.
    + intros H. unfold Qeq in H. simpl in H. lia.
    + intros ->. reflexivity.
  - apply Qle_bool_false in B.
    setoid_replace (affordable inc pct
                    * (1 - (1 + periodic_rate rate) ^ (- (years * 12)))
                    / periodic_rate rate)
      with (affordable inc pct
            * ((1 - (1 + periodic_rate rate) ^ (- (years * 12)))
               / periodic_rate rate)) by (field; lra).
    apply Hfactor. split.
    + intros H.
      destruct (Z.eq_dec years 0) as [|Hne]; [assumption|exfalso].
      assert (Hlt : (1 + periodic_rate rate) ^ (- (years * 12)) < 1).
      { change 1 with ((1 + periodic_rate rate) ^ 0) at 2.
        apply Qpower_lt_compat_l; [lia | lra]. }
      unfold Qdiv in H. apply Qmult_integral in H. destruct H as [H | H].
      * lra.
      * assert (0 < / periodic_rate rate) by (now apply Qinv_lt_0_compat).
        lra.
    + intros ->. simpl. field. lra.
Qed.

(** A term of zero years. *)
Lemma estimate_zero_iff_witness :
  exists v,
    estimate_loan_amount 20000 11.75 0 30 = Returned (Some v)
    /\ (v == 0 <-> (20000 == 0 \/ 30%Z = 0%Z \/ 0%Z = 0%Z)).
Proof.
  apply (estimate_zero_iff 20000 11.75 0 30);
    [vm_compute; discriminate | lia | lia].
Defined.

Local Close Scope Q_scope.

(** * Further properties of the query handler *)

Lemma truthy_some v q : truthy v = Some q -> v = Some q /\ ~ (q == 0)%Q.
Proof.
  destruct v as [x|]; simpl; [|discriminate].
  destruct (Qeq_bool x 0) eqn:E; [discriminate|].
  intros H. injection H as <-. split; [reflexivity|].
  intros Hz. apply Qeq_bool_iff in Hz. congruence.
Qed.

Lemma handle_query_answer ask rate years pct input content :
  input <> EmptyString ->
  ask input = Answer content ->
  handle_query false (Some ask) rate years pct input
  = ([Call_remote input; St_success "Answer:"; St_write (Text content)],
     Returned tt).
Proof.
  intros Hne Hask.
  destruct input as [|a s]; [contradiction|].
  unfold handle_query, call. simpl. now rewrite Hask.
Qed.

(** Every run of the offline block. *)
Lemma offline_branch_shapes rate years pct input :
  exists income,
    parse_income_from_text (Some input) = Returned income
    /\ ((truthy income = None
         /\ offline_branch rate years pct input
            = ([Call_parse input; St_info msg_offline_guidance],
               Returned false))
        \/ exists inc est,
             truthy income = Some inc
             /\ estimate_loan_amount inc rate years pct = Returned est
             /\ ((truthy est = None
                  /\ offline_branch rate years pct input
                     = ([Call_parse input; Call_estimate inc rate years pct;
                         St_info msg_offline_guidance], Returned false))
                 \/ exists e,
                      truthy est = Some e
                      /\ offline_branch rate years pct input
                         = ([Call_parse input;
                             Call_estimate inc rate years pct;
                             St_success msg_offline_title;
                             St_write (Estimate_report e inc rate years pct)],
                            Returned true))).
Proof.
  rewrite offline_branch_eq.
  destruct (parse_returns (Some input)) as [income Hp]. rewrite Hp.
  exists income. split; [reflexivity|].
  destruct (truthy income) as [inc|] eqn:Hi; [right | left; auto].
  destruct (estimate_returns inc rate years pct) as [est He]. rewrite He.
  exists inc, est. split; [reflexivity|]. split; [exact He|].
  destruct (truthy est) as [e|] eqn:Ht; [right; exists e | left]; auto.
Qed.

(** Every run of the [except] block. *)
Lemma on_remote_failure_shapes rate years pct input err :
  (is_quota_error err = false
   /\ on_remote_failure rate years pct input err
      = ([St_error (Error_calling err)], Returned tt))
  \/ (is_quota_error err = true
      /\ exists income,
           parse_income_from_text (Some input) = Returned income
           /\ ((truthy income = None
                /\ on_remote_failure rate years pct input err
                   = ([Call_parse input; St_error (Text msg_quota_no_income)],
                      Returned tt))
               \/ exists inc est,
                    truthy income = Some inc
                    /\ estimate_loan_amount inc rate years pct = Returned est
                    /\ ((truthy est = None
                         /\ on_remote_failure rate years pct input err
                            = ([Call_parse input;
                                Call_estimate inc rate years pct;
                                St_error (Text msg_quota_no_estimate)],
                               Returned tt))
                        \/ exists e,
                             truthy est = Some e
                             /\ on_remote_failure rate years pct input err
                                = ([Call_parse input;
                                    Call_estimate inc rate years pct;
                                    St_warning msg_unavailable;
                                    St_success msg_offline_title;
                                    St_write (Estimate_report e inc rate years
                                                              pct)],
                                   Returned tt)))).
Proof.
  rewrite on_remote_failure_eq.
  destruct (is_quota_error err); [right | left; auto].
  split; [reflexivity|].
  destruct (parse_returns (Some input)) as [income Hp]. rewrite Hp.
  exists income. split; [reflexivity|].
  destruct (truthy income) as [inc|] eqn:Hi; [right | left; auto].
  destruct (estimate_returns inc rate years pct) as [est He]. rewrite He.
  exists inc, est. split; [reflexivity|]. split; [exact He|].
  destruct (truthy est) as [e|] eqn:Ht; [right; exists e | left]; auto.
Qed.

(** The handler in its three modes: the offline block alone, the answer
    of the client, or the call followed by the [except] block. *)
Lemma handle_query_modes offline_mode client rate years pct input :
  input <> EmptyString ->
  (exists used,
      (offline_mode = true \/ client = None)
      /\ offline_branch rate years pct input
         = (trace (handle_query offline_mode client rate years pct input),
            Returned used)
      /\ snd (handle_query offline_mode client rate years pct input)
         = Returned tt)
  \/ (exists ask content,
         offline_mode = false /\ client = Some ask
         /\ handle_query offline_mode client rate years pct input
            = ([Call_remote input; St_success "Answer:";
                St_write (Text content)], Returned tt))
  \/ (exists ask err,
         offline_mode = false /\ client = Some ask
         /\ handle_query offline_mode client rate years pct input
            = (Call_remote input
                 :: fst (on_remote_failure rate years pct input err),
               snd (on_remote_failure rate years pct input err))).
Proof.
  intros Hne.
  destruct offline_mode; [left|destruct client as [ask|]; [right|left]].
  - destruct (offline_branch_shapes rate years pct input)
      as [income [_ [[_ E] | [inc [est [_ [_ [[_ E] | [e [_ E]]]]]]]]]];
      eexists; (split; [now left|]);
      destruct input as [|a s]; try contradiction;
      unfold handle_query; simpl orb; cbv iota; rewrite E;
      destruct client; (split; reflexivity).
  - destruct (ask input) as [content | err] eqn:Hask.
    + left. exists ask, content. split; [reflexivity|]. split; [reflexivity|].
      now apply handle_query_answer.
    + right. exists ask, err. split; [reflexivity|]. split; [reflexivity|].
      destruct input as [|a s]; [contradiction|].
      unfold handle_query, call. simpl. rewrite Hask.
      destruct (on_remote_failure rate years pct (String a s) err) as [tr o].
      reflexivity.
  - destruct (offline_branch_shapes rate years pct input)
      as [income [_ [[_ E] | [inc [est [_ [_ [[_ E] | [e [_ E]]]]]]]]]];
      eexists; (split; [now right|]);
      destruct input as [|a s]; try contradiction;
      unfold handle_query; simpl orb; cbv iota; rewrite E;
      (split; reflexivity).
Qed.

(** Every run of the handler on a question: the events, by the mode, the
    reply of the client and the values found. *)
Lemma handle_query_runs offline_mode client rate years pct input :
  input <> EmptyString ->
  let tr := trace (handle_query offline_mode client rate years pct input) in
  exists income,
    parse_income_from_text (Some input) = Returned income
    /\ snd (handle_query offline_mode client rate years pct input)
       = Returned tt
    /\ (((offline_mode = true \/ client = None)
         /\ ((truthy income = None
              /\ tr = [Call_parse input; St_info msg_offline_guidance])
             \/ exists inc est,
                  truthy income = Some inc
                  /\ estimate_loan_amount inc rate years pct = Returned est
                  /\ ((truthy est = None
                       /\ tr = [Call_parse input;
                                Call_estimate inc rate years pct;
                                St_info msg_offline_guidance])
                      \/ exists e,
                           truthy est = Some e
                           /\ tr = [Call_parse input;
                                    Call_estimate inc rate years pct;
                                    St_success msg_offline_title;
                                    St_write (Estimate_report e inc rate years
                                                              pct)])))
        \/ exists ask,
             offline_mode = false /\ client = Some ask
             /\ ((exists content,
                     ask input = Answer content
                     /\ tr = [Call_remote input; St_success "Answer:";
                              St_write (Text content)])
                 \/ exists err,
                      ask input = Failure err
                      /\ ((is_quota_error err = false
                           /\ tr = [Call_remote input;
                                    St_error (Error_calling err)])
                          \/ (is_quota_error err = true
                              /\ ((truthy income = None
                                   /\ tr = [Call_remote input; Call_parse input;
                                            St_error (Text msg_quota_no_income)])
                                  \/ exists inc est,
                                       truthy income = Some inc
                                       /\ estimate_loan_amount inc rate years pct
                                          = Returned est
                                       /\ ((truthy est = None
                                            /\ tr = [Call_remote input;
                                                     Call_parse input;
                                                     Call_estimate inc rate
                                                                   years pct;
                                                     St_error
                                                       (Text
                                                          msg_quota_no_estimate)])
                                           \/ exists e,
                                                truthy est = Some e
                                                /\ tr = [Call_remote input;
                                                         Call_parse input;
                                                         Call_estimate inc rate
                                                           years pct;
                                                         St_warning
                                                           msg_unavailable;
                                                         St_success
                                                           msg_offline_title;
                                                         St_write
                                                           (Estimate_report e
                                                              inc rate years
                                                              pct)])))))).
Proof.
  intros Hne tr. subst tr.
  destruct (offline_branch_shapes rate years pct input) as [income [Hp Ho]].
  exists income. split; [exact Hp|]. split.
  { destruct (handle_query_modes offline_mode client rate years pct input Hne)
      as [[used [_ [_ Hs]]] | [[ask [content [_ [_ E]]]]
                              | [ask [err [_ [_ E]]]]]];
      [exact Hs | now rewrite E |].
    rewrite E. cbn [snd].
    destruct (on_remote_failure_shapes rate years pct input err)
      as [[_ F] | [_ [i [_ [[_ F] | [inc [est [_ [_ [[_ F] | [e [_ F]]]]]]]]]]]];
      now rewrite F. }
  assert (Hmode : (offline_mode = true \/ client = None)
                  \/ exists ask, offline_mode = false /\ client = Some ask).
  { destruct offline_mode; [now left; left|].
    destruct client as [ask|]; [right; now exists ask | now left; right]. }
  destruct Hmode as [Hoff | [ask [-> ->]]].
  - left. split; [exact Hoff|].
    rewrite (handle_query_offline _ _ _ _ _ _ Hne Hoff).
    destruct Ho as [[Hi E] | [inc [est [Hi [He [[Ht E] | [e [Ht E]]]]]]]];
      rewrite E; cbn [trace fst].
    + left. now split.
    + right. exists inc, est. split; [exact Hi|]. split; [exact He|].
      left. now split.
    + right. exists inc, est. split; [exact Hi|]. split; [exact He|].
      right. exists e. now split.
  - right. exists ask. split; [reflexivity|]. split; [reflexivity|].
    destruct (ask input) as [content | err] eqn:Ha.
    + left. exists content. split; [reflexivity|].
      now rewrite (handle_query_answer _ _ _ _ _ _ Hne Ha).
    + right. exists err. split; [reflexivity|].
      rewrite (handle_query_failure _ _ _ _ _ _ Hne Ha).
      destruct (on_remote_failure_shapes rate years pct input err)
        as [[Hq F] | [Hq [i [Hp' H]]]].
      * left. split; [exact Hq|]. now rewrite F.
      * right. split; [exact Hq|].
        rewrite Hp in Hp'. injection Hp' as <-.
        destruct H as [[Hi F] | [inc [est [Hi [He [[Ht F] | [e [Ht F]]]]]]]];
          rewrite F; cbn [trace fst].
        -- left. now split.
        -- right. exists inc, est. split; [exact Hi|]. split; [exact He|].
           left. now split.
        -- right. exists inc, est. split; [exact Hi|]. split; [exact He|].
           right. exists e. now split.
Qed.

Ltac handler_runs Hne :=
  match goal with
  | |- context [handle_query ?o ?c ?r ?y ?p ?i] =>
      let H := fresh "Hruns" in
      pose proof (handle_query_runs o c r y p i Hne) as H;
      cbv zeta in H;
      destruct H
        as [income [Hp [Hret
             [[Hoff [[Hi E] | [inc [est [Hi [He [[Ht E] | [e [Ht E]]]]]]]]]
             | [ask [Hm [Hc
                 [[content [Ha E]]
                 | [err [Ha [[Hq E]
                            | [Hq [[Hi E]
                                  | [inc [est [Hi [He [[Ht E]
                                                      | [e [Ht E]]]]]]]]]]]]]]]]]]]]
  end.

Ltac split_ors :=
  repeat match goal with
         | H : _ \/ _ |- _ => destruct H
         | H : False |- _ => contradiction
         end.

(** X14.  With offline mode off and a client that answers, the handler
    asks the client once and shows the heading and the content of the
    answer; neither the extractor nor the estimator is called, also when
    the question holds an income, and the sidebar settings play no
    part. *)
Theorem remote_answer_shown (ask : remote) (rate : Q) (years pct : Z)
    (user_input content : string) :
  user_input <> EmptyString ->
  ask user_input = Answer content ->
  handle_query false (Some ask) rate years pct user_input
  = ([Call_remote user_input; St_success "Answer:"; St_write (Text content)],
     Returned tt)
  /\ count is_parse_call
           (trace (handle_query false (Some ask) rate years pct user_input))
     = 0
  /\ count is_estimate_call
           (trace (handle_query false (Some ask) rate years pct user_input))
     = 0.
Proof.
  intros Hne Hask.
  rewrite (handle_query_answer _ _ _ _ _ _ Hne Hask).
  repeat split.
Qed.

Lemma remote_answer_shown_witness :
  handle_query false (Some (answering "Prime is 11.75%.")) 11.75 20 30
               "I earn 20k, what is the prime rate?"
  = ([Call_remote "I earn 20k, what is the prime rate?";
      St_success "Answer:"; St_write (Text "Prime is 11.75%.")],
     Returned tt)
  /\ count is_parse_call
           (trace (handle_query false (Some (answering "Prime is 11.75%."))
                                11.75 20 30
                                "I earn 20k, what is the prime rate?"))
     = 0
  /\ count is_estimate_call
           (trace (handle_query false (Some (answering "Prime is 11.75%."))
                                11.75 20 30
                                "I earn 20k, what is the prime rate?"))
     = 0.
Proof.
  apply (remote_answer_shown (answering "Prime is 11.75%.") 11.75 20 30
                             "I earn 20k, what is the prime rate?"
                             "Prime is 11.75%.");
    [discriminate | reflexivity].
Defined.

(** X15.  Every question that is not empty is answered, and answered
    once: the handler returns, its run shows exactly one body (a written
    text or report, the guidance, or an error), and that body is the last
    event of the run.  The empty question causes no event at all. *)
Theorem every_query_answered (offline_mode : bool) (client : option remote)
    (rate : Q) (years pct : Z) :
  (forall user_input : string,
      user_input <> EmptyString ->
      snd (handle_query offline_mode client rate years pct user_input)
      = Returned tt
      /\ count is_body
               (trace (handle_query offline_mode client rate years pct
                                    user_input))
         = 1
      /\ exists e,
           final (trace (handle_query offline_mode client rate years pct
                                      user_input))
           = Some e
           /\ is_body e = true)
  /\ handle_query offline_mode client rate years pct EmptyString
     = ([], Returned tt).
Proof.
  split; [|reflexivity].
  intros user_input Hne.
  handler_runs Hne; (split; [exact Hret|]); rewrite E;
    (split; [reflexivity|]); eexists; (split; reflexivity).
Qed.

Lemma every_query_answered_witness :
  snd (handle_query false (Some (failing "Error code: 429")) 11.75 20 30
                    "How much can I borrow?")
  = Returned tt
  /\ count is_body
           (trace (handle_query false (Some (failing "Error code: 429"))
                                11.75 20 30 "How much can I borrow?"))
     = 1
  /\ exists e,
       final (trace (handle_query false (Some (failing "Error code: 429"))
                                  11.75 20 30 "How much can I borrow?"))
       = Some e
       /\ is_body e = true.
Proof.
  apply (proj1 (every_query_answered false
                  (Some (failing "Error code: 429")) 11.75 20 30)
               "How much can I borrow?"%string).
  discriminate.
Defined.

(** X16.  Nothing is tried twice.  In the run on a question the client
    is called at most once, and exactly once when offline mode is off and
    a client is configured; the extractor is called at most once, and the
    estimator at most as often as the extractor. *)
Theorem single_attempt (offline_mode : bool) (client : option remote)
    (rate : Q) (years pct : Z) (user_input : string) :
  user_input <> EmptyString ->
  count is_remote_call
        (trace (handle_query offline_mode client rate years pct user_input))
  <= 1
  /\ (count is_remote_call
            (trace (handle_query offline_mode client rate years pct
                                 user_input))
      = 1
      <-> offline_mode = false /\ client <> None)
  /\ count is_parse_call
           (trace (handle_query offline_mode client rate years pct user_input))
     <= 1
  /\ count is_estimate_call
           (trace (handle_query offline_mode client rate years pct user_input))
     <= count is_parse_call
              (trace (handle_query offline_mode client rate years pct
                                   user_input)).
Proof.
  intros Hne.
  handler_runs Hne; rewrite E; cbn;
    (split; [lia|]); (split; [|split; lia]).
  1-3: split; [discriminate|];
       intros [Ho Hcl]; destruct Hoff as [Hoff|Hoff]; congruence.
  all: split; [intros _|reflexivity]; split; [exact Hm|]; congruence.
Qed.

Lemma single_attempt_witness :
  count is_remote_call
        (trace (handle_query false (Some (failing "Error code: 429")) 11.75
                             20 30 "I earn 20k"))
  <= 1
  /\ (count is_remote_call
            (trace (handle_query false (Some (failing "Error code: 429"))
                                 11.75 20 30 "I earn 20k"))
      = 1
      <-> false = false /\ Some (failing "Error code: 429") <> None)
  /\ count is_parse_call
           (trace (handle_query false (Some (failing "Error code: 429"))
                                11.75 20 30 "I earn 20k"))
     <= 1
  /\ count is_estimate_call
           (trace (handle_query false (Some (failing "Error code: 429"))
                                11.75 20 30 "I earn 20k"))
     <= count is_parse_call
              (trace (handle_query false (Some (failing "Error code: 429"))
                                   11.75 20 30 "I earn 20k")).
Proof.
  apply (single_attempt false (Some (failing "Error code: 429")) 11.75 20 30
                        "I earn 20k").
  discriminate.
Defined.

(** X17.  What the handler passes on and shows is what it was given and
    what it computed.  The extractor and the client get the question as
    typed; the estimator gets the income the extractor returned, which is
    not zero, and the settings of the sidebar; a report shows the value
    the estimator returned for that income and those settings, which is
    not zero, beside that income and those settings. *)
Theorem report_matches_calls (offline_mode : bool) (client : option remote)
    (rate : Q) (years pct : Z) (user_input : string) :
  (forall text,
      In (Call_parse text)
         (trace (handle_query offline_mode client rate years pct user_input)) ->
      text = user_input)
  /\ (forall question,
         In (Call_remote question)
            (trace (handle_query offline_mode client rate years pct
                                 user_input)) ->
         question = user_input)
  /\ (forall inc r y p,
         In (Call_estimate inc r y p)
            (trace (handle_query offline_mode client rate years pct
                                 user_input)) ->
         r = rate /\ y = years /\ p = pct
         /\ parse_income_from_text (Some user_input) = Returned (Some inc)
         /\ ~ (inc == 0)%Q)
  /\ (forall e inc r y p,
         In (St_write (Estimate_report e inc r y p))
            (trace (handle_query offline_mode client rate years pct
                                 user_input)) ->
         r = rate /\ y = years /\ p = pct
         /\ parse_income_from_text (Some user_input) = Returned (Some inc)
         /\ estimate_loan_amount inc rate years pct = Returned (Some e)
         /\ ~ (inc == 0)%Q /\ ~ (e == 0)%Q).
Proof.
  destruct user_input as [|a s].
  { repeat split; contradiction. }
  assert (Hne : String a s <> EmptyString) by discriminate.
  handler_runs Hne; rewrite E;
    try (apply truthy_some in Hi; destruct Hi as [-> Hi]);
    try (apply truthy_some in Ht; destruct Ht as [-> Ht]);
    (split; [|split; [|split]]); cbn [In];
    intros; repeat match goal with
                   | H : _ \/ _ |- _ => destruct H
                   | H : False |- _ => contradiction
                   | H : @eq event _ _ |- _ => inversion H; clear H; subst
                   end;
    try discriminate; auto 10.
Qed.

Lemma report_matches_calls_witness :
  (0 : Q) = 0%Q /\ 20%Z = 20%Z /\ 30%Z = 30%Z
  /\ parse_income_from_text (Some "I earn 20k"%string)
     = Returned (Some 20000%Q)
  /\ estimate_loan_amount 20000 0 20 30
     = Returned (Some (144000000 # 100)%Q)
  /\ ~ (20000 == 0)%Q /\ ~ ((144000000 # 100) == 0)%Q.
Proof.
  apply (proj2 (proj2 (proj2 (report_matches_calls true None 0 20 30
                                                   "I earn 20k")))).
  vm_compute. auto.
Defined.

Lemma truthy_none v : truthy v = None -> zero_or_absent v.
Proof.
  destruct v as [x|]; simpl; [|trivial].
  destruct (Qeq_bool x 0) eqn:E; [|discriminate].
  intros _. now apply Qeq_bool_iff.
Qed.

(** Inside the ranges of the sidebar an income that the handler takes
    for present has an estimate that it takes for present too. *)
Lemma sidebar_estimate_truthy rate years pct text income inc :
  within_sidebar rate years pct ->
  parse_income_from_text text = Returned income ->
  truthy income = Some inc ->
  exists e,
    estimate_loan_amount inc rate years pct = Returned (Some e)
    /\ (0 < e)%Q /\ truthy (Some e) = Some e.
Proof.
  intros (Hr & _ & Hy & _ & Hpc & _) Hp Hi.
  apply truthy_some in Hi. destruct Hi as [-> Hnz].
  assert (Hpos : (0 < inc)%Q).
  { pose proof (parse_nonneg _ _ Hp) as H0.
    destruct (Qle_lt_or_eq _ _ H0) as [H|H]; [exact H|].
    exfalso. apply Hnz. now symmetry. }
  assert (Hrate : (0 < rate)%Q).
  { apply Qlt_le_trans with (y := 5%Q); [reflexivity | exact Hr]. }
  destruct (estimate_positive inc rate years pct Hpos ltac:(lia) ltac:(lia)
                              Hrate) as [e [He Hepos]].
  exists e. split; [exact He|]. split; [exact Hepos|].
  apply truthy_nonzero. intros Hz. rewrite Hz in Hepos.
  exact (Qlt_irrefl 0 Hepos).
Qed.

(** X18.  Inside the ranges of the sidebar (a rate of 5 to 25 percent, a
    term of 5 to 30 years, a repayment share of 10 to 40 percent) an
    income that is found and is not zero always gets its estimate: the
    estimate is positive, the offline block shows the report, and so does
    the fallback after a quota failure.  So there the error that no
    estimate could be computed is never shown, and the offline guidance
    is shown only when no income, or an income of zero, was found. *)
Theorem sidebar_income_gets_estimate (rate : Q) (years pct : Z) :
  within_sidebar rate years pct ->
  (forall (user_input : string) (inc : Q),
      user_input <> EmptyString ->
      parse_income_from_text (Some user_input) = Returned (Some inc) ->
      ~ (inc == 0)%Q ->
      exists e,
        estimate_loan_amount inc rate years pct = Returned (Some e)
        /\ (0 < e)%Q
        /\ (forall offline_mode client,
               offline_mode = true \/ client = None ->
               trace (handle_query offline_mode client rate years pct
                                   user_input)
               = [Call_parse user_input; Call_estimate inc rate years pct;
                  St_success msg_offline_title;
                  St_write (Estimate_report e inc rate years pct)])
        /\ (forall ask err,
               ask user_input = Failure err ->
               is_quota_error err = true ->
               trace (handle_query false (Some ask) rate years pct user_input)
               = [Call_remote user_input; Call_parse user_input;
                  Call_estimate inc rate years pct;
                  St_warning msg_unavailable; St_success msg_offline_title;
                  St_write (Estimate_report e inc rate years pct)]))
  /\ (forall (offline_mode : bool) (client : option remote)
             (user_input : string),
         ~ In (St_error (Text msg_quota_no_estimate))
              (trace (handle_query offline_mode client rate years pct
                                   user_input))
         /\ (In (St_info msg_offline_guidance)
                (trace (handle_query offline_mode client rate years pct
                                     user_input)) ->
             exists income,
               parse_income_from_text (Some user_input) = Returned income
               /\ zero_or_absent income)).
Proof.
  intros Hside. split.
  - intros user_input inc Hne Hp Hnz.
    pose proof (truthy_nonzero inc Hnz) as Ti.
    destruct (sidebar_estimate_truthy _ _ _ _ _ _ Hside Hp Ti)
      as [e [He [Hpos Te]]].
    exists e. split; [exact He|]. split; [exact Hpos|]. split.
    + intros offline_mode client Hoff.
      rewrite (handle_query_offline _ _ _ _ _ _ Hne Hoff), offline_branch_eq,
        Hp, Ti, He, Te.
      reflexivity.
    + intros ask err Ha Hq.
      rewrite (handle_query_failure _ _ _ _ _ _ Hne Ha), on_remote_failure_eq,
        Hq, Hp, Ti, He, Te.
      reflexivity.
  - intros offline_mode client user_input.
    destruct user_input as [|a s].
    { split; [intros []|intros []]. }
    assert (Hne : String a s <> EmptyString) by discriminate.
    handler_runs Hne; rewrite E; cbn [In];
      try (destruct (sidebar_estimate_truthy _ _ _ _ _ _ Hside Hp Hi)
             as [e' [He' [_ Te']]];
           rewrite He in He'; injection He' as ->);
      try congruence;
      (split;
       [ intros H; split_ors; try congruence;
         match goal with
         | H : @eq event _ _ |- _ =>
             unfold msg_quota_no_income, msg_quota_no_estimate in H;
             discriminate H
         end
       | intros H; split_ors; try congruence;
         exists income; (split; [exact Hp | now apply truthy_none]) ]).
Qed.

Lemma sidebar_income_gets_estimate_witness :
  exists e,
    estimate_loan_amount 20000 11.75 20 30 = Returned (Some e)
    /\ (0 < e)%Q
    /\ (forall offline_mode client,
           offline_mode = true \/ client = None ->
           trace (handle_query offline_mode client 11.75 20 30 "I earn 20k")
           = [Call_parse "I earn 20k"; Call_estimate 20000 11.75 20 30;
              St_success msg_offline_title;
              St_write (Estimate_report e 20000 11.75 20 30)])
    /\ (forall ask err,
           ask "I earn 20k"%string = Failure err ->
           is_quota_error err = true ->
           trace (handle_query false (Some ask) 11.75 20 30 "I earn 20k")
           = [Call_remote "I earn 20k"; Call_parse "I earn 20k";
              Call_estimate 20000 11.75 20 30;
              St_warning msg_unavailable; St_success msg_offline_title;
              St_write (Estimate_report e 20000 11.75 20 30)]).
Proof.
  apply (proj1 (sidebar_income_gets_estimate 11.75 20 30
                  ltac:(unfold within_sidebar, Qle; simpl; lia))
               "I earn 20k"%string 20000%Q);
    [discriminate | reflexivity | discriminate].
Defined.

Lemma prefix_occurs (s1 s2 : string) :
  prefix s1 s2 = true <-> exists post : string, s2 = (s1 ++ post)%string.
Proof.
  revert s2. induction s1 as [|a s1 IH]; intros s2.
  - destruct s2; simpl; (split; [intros _; eexists; reflexivity | reflexivity]).
  - destruct s2 as [|b s2]; simpl.
    + split; [discriminate | intros [post H]; discriminate].
    + destruct (ascii_dec a b) as [->|Hab].
      * rewrite IH. split; intros [post H]; exists post; congruence.
      * split; [discriminate | intros [post H]; congruence].
Qed.

Lemma contains_occurs (needle hay : string) :
  contains needle hay = true <-> occurs needle hay.
Proof.
  unfold contains, occurs.
  induction hay as [|b hay IH].
  - destruct needle as [|a needle]; simpl.
    + split; [intros _; exists EmptyString, EmptyString; reflexivity
             | reflexivity].
    + split; [discriminate|].
      intros [[|c pre] [post H]]; discriminate.
  - cbn [index].
    destruct (prefix needle (String b hay)) eqn:Hpre.
    + split; [intros _ | reflexivity].
      apply prefix_occurs in Hpre. destruct Hpre as [post H].
      exists EmptyString, post. exact H.
    + split.
      * intros H.
        destruct (index 0 needle hay) as [n|]; [|discriminate].
        destruct (proj1 IH eq_refl) as [pre [post Hh]].
        exists (String b pre), post. simpl. now rewrite Hh.
      * intros [[|c pre] [post H]].
        -- simpl in H.
           assert (Hp : prefix needle (String b hay) = true)
             by (apply prefix_occurs; now exists post).
           congruence.
        -- simpl in H. injection H as _ H.
           assert (Hi : match index 0 needle hay with
                        | Some _ => true
                        | None => false
                        end = true)
             by (apply IH; now exists pre, post).
           destruct (index 0 needle hay); [reflexivity | discriminate].
Qed.

Lemma occurs_wrapped (needle hay pre post : string) :
  occurs needle hay -> occurs needle (pre ++ (hay ++ post))%string.
Proof.
  intros [p [q ->]].
  exists (pre ++ p)%string, (q ++ post)%string.
  induction pre as [|c pre IH]; simpl.
  - induction p as [|c p IHp]; simpl.
    + induction needle as [|c needle IHn]; simpl; [reflexivity|].
      now rewrite IHn.
    + now rewrite IHp.
  - now rewrite IH.
Qed.

(** X19.  A failure counts as a quota failure exactly when its text holds
    [insufficient_quota] or [Error code: 429] somewhere, in this very
    spelling; so a quota failure stays one whatever text is put before
    and after it. *)
Theorem quota_marker_anywhere :
  (forall err_text : string,
      is_quota_error err_text = true
      <-> occurs "insufficient_quota" err_text
          \/ occurs "Error code: 429" err_text)
  /\ (forall err_text pre post : string,
         is_quota_error err_text = true ->
         is_quota_error (pre ++ (err_text ++ post))%string = true).
Proof.
  assert (Hiff : forall err_text : string,
             is_quota_error err_text = true
             <-> occurs "insufficient_quota" err_text
                 \/ occurs "Error code: 429" err_text).
  { intros err_text. unfold is_quota_error.
    now rewrite orb_true_iff, !contains_occurs. }
  split; [exact Hiff|].
  intros err_text pre post H.
  apply Hiff. apply Hiff in H.
  destruct H as [H|H]; [left|right]; now apply occurs_wrapped.
Qed.

Lemma quota_marker_anywhere_witness :
  is_quota_error
    ("openai.RateLimitError: " ++ ("Error code: 429" ++ " - quota"))%string
  = true.
Proof.
  apply (proj2 quota_marker_anywhere "Error code: 429"%string
               "openai.RateLimitError: "%string " - quota"%string).
  reflexivity.
Defined.
